(** * Combat engine of [backend.py]: damage model, turn, round and match

    A shallow embedding of [src/backend.py] and the properties its
    specification states about it.

    Numbers.  The engine computes on Python numbers (ints and floats).
    They are modelled as exact rationals [Q]: true division [/] is
    [Qdiv], comparisons are the boolean comparisons of [Q], and the
    truth value of a number ([if damage.physical:]) is "different from
    zero".  Rounding, infinities and NaN are outside this model.

    Objects.  Characters are mutable Python objects; every character of a
    round is a distinct object (the two teams come from two separate
    loads), so a turn is modelled as a function that returns the two
    characters as the call leaves them, and a round writes them back into
    the team lists at the indices they were read from. *)

From Stdlib Require Import QArith Qround Lqa ZArith Lia Bool.
From Stdlib Require Import String Ascii DecimalString.
From stdpp Require Import base list strings.

Local Open Scope string_scope.
Local Open Scope list_scope.
Local Open Scope Q_scope.

(** ** Outcomes of fallible code *)

(** A Python call either returns a value or raises; the exception is
    identified by its message. *)
Inductive result (A : Type) : Type :=
| Ok (a : A)
| Err (msg : string).
Arguments Ok {A} a.
Arguments Err {A} msg.

(** ** Data model ([utils.py], not part of the sources) *)

(** Modelled from the spec: [utils.Stats], the value bundle of the
    numeric attributes the engine reads (current health, armor, magic
    resistance, special-trigger chance). *)
Record Stats : Type := mkStats {
  current_hp : Q;
  armor : Q;
  magic_resistance : Q;
  special_trigger_chance : Q
}.

(** Modelled from the spec: the constructor call [Stats(current_hp=x)],
    a delta whose other fields are unset and leave the base unchanged. *)
Definition Stats_current_hp (x : Q) : Stats :=
  {| current_hp := x; armor := 0; magic_resistance := 0;
     special_trigger_chance := 0 |}.

(** Modelled from the spec: [Stats.add_stat_changes], the additive
    combination: a new [Stats] with each field summed. *)
Definition add_stat_changes (base delta : Stats) : Stats :=
  {| current_hp := current_hp base + current_hp delta;
     armor := armor base + armor delta;
     magic_resistance := magic_resistance base + magic_resistance delta;
     special_trigger_chance :=
       special_trigger_chance base + special_trigger_chance delta |}.

(** Modelled from the spec: [utils.Damage], read by the engine through
    [damage.physical] and [damage.magic]. *)
Record Damage : Type := mkDamage {
  physical : Q;
  magic : Q
}.

(** Modelled from the spec: an attack, read by the engine through
    [attack.damage] and [attack.stat_updates_to_self] (which may be
    [None]). *)
Record Attack : Type := mkAttack {
  damage : Damage;
  stat_updates_to_self : option Stats
}.

(** Modelled from the spec: [utils.DamageStats], the running counters. *)
Record DamageStats : Type := mkDamageStats {
  damage_dealt : Q;
  damage_taken : Q;
  damage_mitigated : Q;
  kills : Z
}.

(** Modelled from the spec: [utils.BaseCharacter]. *)
Record BaseCharacter : Type := mkCharacter {
  name : string;
  basic_attack : Attack;
  special_attack : Attack;
  effective_stats : Stats;
  damage_stats : DamageStats
}.

(** Field updates of the mutable objects. *)
Definition set_effective_stats (c : BaseCharacter) (s : Stats) : BaseCharacter :=
  {| name := name c; basic_attack := basic_attack c;
     special_attack := special_attack c; effective_stats := s;
     damage_stats := damage_stats c |}.

Definition set_damage_stats (c : BaseCharacter) (ds : DamageStats) : BaseCharacter :=
  {| name := name c; basic_attack := basic_attack c;
     special_attack := special_attack c; effective_stats := effective_stats c;
     damage_stats := ds |}.

Definition add_damage_mitigated (ds : DamageStats) (x : Q) : DamageStats :=
  {| damage_dealt := damage_dealt ds; damage_taken := damage_taken ds;
     damage_mitigated := damage_mitigated ds + x; kills := kills ds |}.

Definition add_damage_dealt (ds : DamageStats) (x : Q) : DamageStats :=
  {| damage_dealt := damage_dealt ds + x; damage_taken := damage_taken ds;
     damage_mitigated := damage_mitigated ds; kills := kills ds |}.

Definition add_damage_taken (ds : DamageStats) (x : Q) : DamageStats :=
  {| damage_dealt := damage_dealt ds; damage_taken := damage_taken ds + x;
     damage_mitigated := damage_mitigated ds; kills := kills ds |}.

Definition add_kills (ds : DamageStats) (k : Z) : DamageStats :=
  {| damage_dealt := damage_dealt ds; damage_taken := damage_taken ds;
     damage_mitigated := damage_mitigated ds; kills := (kills ds + k)%Z |}.

(** ** Python comparisons and truth values on numbers *)

(** [x <= y] *)
Definition py_le (x y : Q) : bool := Qle_bool x y.
(** [x > y] *)
Definition py_gt (x y : Q) : bool := negb (Qle_bool x y).
(** [if x:] on a number *)
Definition py_truthy (x : Q) : bool := negb (Qeq_bool x 0).

(** ** Damage model *)

Definition N_ROUNDS : nat := 5.
Definition N_WINS : nat := 3.

(** [calculate_damage_taken], lines 28-50. *)
Definition calculate_damage_taken (damage : Damage) (character_stats : option Stats)
  : result (Q * Q) :=
  match character_stats with
  | None => Err "Character stats cannot be None"
  | Some character_stats =>
      let mitigated_physical := physical damage * armor character_stats / 100 in
      let mitigated_magic := magic damage * magic_resistance character_stats / 100 in
      let hp_lost := 0 in
      let hp_lost :=
        if py_truthy (physical damage)
        then hp_lost + (physical damage - mitigated_physical) else hp_lost in
      let hp_lost :=
        if py_truthy (magic damage)
        then hp_lost + (magic damage - mitigated_magic) else hp_lost in
      Ok (- hp_lost, mitigated_physical + mitigated_magic)
  end.

(** [calculate_miss_chance], lines 52-66. *)
Definition calculate_miss_chance (damage : Damage) (character_stats : Stats) : Q :=
  if py_gt (magic damage) (physical damage)
  then magic_resistance character_stats / 10
  else armor character_stats / 10.

(** ** Text helpers *)

Definition NL : string := String (ascii_of_nat 10) "".
Definition TAB : string := String (ascii_of_nat 9) "".

(** ["-" * 20] *)
Definition DASHES : string := "--------------------".

(** [str(n)] for a non-negative integer. *)
Definition str_nat (n : nat) : string := NilZero.string_of_uint (Nat.to_uint n).
Definition str_Z (n : Z) : string := NilZero.string_of_uint (N.to_uint (Z.to_N n)).

(** Nearest integer to [a / d] for [0 <= a], [0 < d], ties to even. *)
Definition round_half_even (a d : Z) : Z :=
  let q := (a / d)%Z in
  let r := (a mod d)%Z in
  match (2 * r ?= d)%Z with
  | Lt => q
  | Gt => (q + 1)%Z
  | Eq => if Z.even q then q else (q + 1)%Z
  end.

(** The format [{x:.2f}]: sign, integer part, a point and two decimals. *)
Definition format_2f (x : Q) : string :=
  let cents := round_half_even (Z.abs (Qnum x) * 100) (Zpos (Qden x)) in
  let frac := (cents mod 100)%Z in
  (if (Qnum x <? 0)%Z then "-" else "") +:+
  str_Z (cents / 100) +:+ "." +:+
  (if (frac <? 10)%Z then "0" else "") +:+ str_Z frac.

(** [your_assignments / f"{round}.json"] on paths. *)
Definition path_join (dir file : string) : string := dir +:+ "/" +:+ file.
Definition round_file (round : nat) : string := str_nat round +:+ ".json".

(** ** Outcomes of code that loops *)

(** The round loop need not terminate; it is run with a bound on the
    number of iterations, and [OutOfFuel] is the run that needs more. *)
Inductive outcome (A : Type) : Type :=
| Returns (a : A)
| Raises (msg : string)
| OutOfFuel.
Arguments Returns {A} a.
Arguments Raises {A} msg.
Arguments OutOfFuel {A}.

(** Unpacking a tuple of [arity] values into [targets] names
    ([a, b = t]): lengths must agree. *)
Definition unpack_check (targets arity : nat) : result unit :=
  if (targets =? arity)%nat then Ok tt
  else if (targets <? arity)%nat
       then Err ("too many values to unpack (expected " +:+ str_nat targets +:+ ")")
       else Err ("not enough values to unpack (expected " +:+ str_nat targets
                 +:+ ", got " +:+ str_nat arity +:+ ")").

Abbreviation Team := (list BaseCharacter).

(** What [play_round] returns: the 3-tuple
    [your_win, battle_log, (your_team, opponent_team)]. *)
Definition RoundResult : Type := (bool * list string * (Team * Team))%type.
Definition RoundResult_arity : nat := 3.

Section Engine.

(** The collaborators that are not part of the sources: the RNG engine
    ([utils.RngEngine], one call [rng(probability)] that answers and
    advances the engine) and the team loader ([game.read_data]). *)
Variable RngState : Type.
Variable rng : Q -> RngState -> bool * RngState.
Variable read_data : string -> Team.

(** *** Turn *)

(** The objects a turn can mutate: the two characters and the engine. *)
Definition TurnState : Type := (BaseCharacter * BaseCharacter * RngState)%type.

(** [play_turn], lines 68-116.  The state is returned with the outcome,
    also when the call raises. *)
Definition play_turn (your_character opponent_character : BaseCharacter)
    (is_your_turn : bool) (rng_engine : RngState) : result string * TurnState :=
  if existsb (fun char => py_le (current_hp (effective_stats char)) 0)
             [your_character; opponent_character]
  then (Err "One of the characters is already dead.",
        (your_character, opponent_character, rng_engine))
  else
    let attacking_char := if is_your_turn then your_character else opponent_character in
    let defending_char := if is_your_turn then opponent_character else your_character in
    let special_chance := special_trigger_chance (effective_stats attacking_char) in
    let '(is_attack_special, rng_engine) := rng special_chance rng_engine in
    let attack :=
      if is_attack_special then special_attack attacking_char
      else basic_attack attacking_char in
    let attacking_char :=
      match stat_updates_to_self attack with
      | Some updates =>
          set_effective_stats attacking_char
            (add_stat_changes (effective_stats attacking_char) updates)
      | None => attacking_char
      end in
    let miss_chance := calculate_miss_chance (damage attack) (effective_stats defending_char) in
    let '(is_damage_missed, rng_engine) := rng miss_chance rng_engine in
    let state (attacking_char defending_char : BaseCharacter) : TurnState :=
      if is_your_turn then (attacking_char, defending_char, rng_engine)
      else (defending_char, attacking_char, rng_engine) in
    if is_damage_missed then
      (Ok (name attacking_char +:+ " missed the attack on " +:+ name defending_char +:+ "."),
       state attacking_char defending_char)
    else
      match calculate_damage_taken (damage attack) (Some (effective_stats defending_char)) with
      | Err msg => (Err msg, state attacking_char defending_char)
      | Ok (damage_taken, mitigated_damage) =>
          let defending_char :=
            set_effective_stats defending_char
              (add_stat_changes (effective_stats defending_char)
                                (Stats_current_hp damage_taken)) in
          let defending_char :=
            set_damage_stats defending_char
              (add_damage_mitigated (damage_stats defending_char) mitigated_damage) in
          let total_damage := physical (damage attack) + magic (damage attack) in
          let attacking_char :=
            set_damage_stats attacking_char
              (add_damage_dealt (damage_stats attacking_char) total_damage) in
          let defending_char :=
            set_damage_stats defending_char
              (add_damage_taken (damage_stats defending_char) total_damage) in
          let description :=
            name attacking_char +:+ " hit " +:+ name defending_char +:+ " for "
            +:+ format_2f total_damage +:+ " damage." in
          if py_le (current_hp (effective_stats defending_char)) 0 then
            (Ok (description +:+ " " +:+ name defending_char +:+ " has fainted."),
             state (set_damage_stats attacking_char
                      (add_kills (damage_stats attacking_char) 1))
                   defending_char)
          else (Ok description, state attacking_char defending_char)
      end.

(** *** Round *)

(** The variables of the loop of [play_round]. *)
Record RoundState : Type := mkRoundState {
  your_team : Team;
  opponent_team : Team;
  your_index : nat;
  opponent_index : nat;
  is_your_turn : bool;
  battle_log : list string;
  round_rng : RngState
}.

(** The loop condition, line 145. *)
Definition round_continues (st : RoundState) : bool :=
  (your_index st <? length (your_team st))%nat
  && (opponent_index st <? length (opponent_team st))%nat.

(** The loop body, lines 146-154.  The turn mutates the two characters
    in place, that is, at their positions in the two teams. *)
Definition round_body (st : RoundState) : result RoundState :=
  match your_team st !! your_index st, opponent_team st !! opponent_index st with
  | Some your_character, Some opponent_character =>
      match play_turn your_character opponent_character (is_your_turn st) (round_rng st) with
      | (Err msg, _) => Err msg
      | (Ok turn_description, (your_character, opponent_character, rng_engine)) =>
          let opponent_index' :=
            if py_le (current_hp (effective_stats opponent_character)) 0
            then S (opponent_index st) else opponent_index st in
          let your_index' :=
            if py_le (current_hp (effective_stats your_character)) 0
            then S (your_index st) else your_index st in
          Ok {| your_team := <[your_index st := your_character]> (your_team st);
                opponent_team := <[opponent_index st := opponent_character]> (opponent_team st);
                your_index := your_index';
                opponent_index := opponent_index';
                is_your_turn := negb (is_your_turn st);
                battle_log := battle_log st ++ [turn_description];
                round_rng := rng_engine |}
      end
  | _, _ => Err "list index out of range"
  end.

(** The [while] loop, lines 145-154, for at most [fuel] iterations. *)
Fixpoint round_loop (fuel : nat) (st : RoundState) : outcome RoundState :=
  if round_continues st then
    match fuel with
    | O => OutOfFuel
    | S fuel =>
        match round_body st with
        | Ok st => round_loop fuel st
        | Err msg => Raises msg
        end
    end
  else Returns st.

(** The state in which the loop is entered, lines 136-143. *)
Definition round_start (your_assignment opponent_assignment : string)
    (is_your_turn_first : bool) (rng_engine : RngState) : RoundState :=
  {| your_team := read_data your_assignment;
     opponent_team := read_data opponent_assignment;
     your_index := 0;
     opponent_index := 0;
     is_your_turn := is_your_turn_first;
     battle_log := [];
     round_rng := rng_engine |}.

(** The value returned at loop exit, lines 155-157. *)
Definition round_result (st : RoundState) : RoundResult :=
  let your_win := (your_index st <? length (your_team st))%nat in
  (your_win, battle_log st, (your_team st, opponent_team st)).

(** [play_round], lines 118-157; the engine it leaves is returned with
    the result. *)
Definition play_round (fuel : nat) (your_assignment opponent_assignment : string)
    (is_your_turn_first : bool) (rng_engine : RngState)
  : outcome (RoundResult * RngState) :=
  match round_loop fuel
          (round_start your_assignment opponent_assignment is_your_turn_first rng_engine) with
  | Returns st => Returns (round_result st, round_rng st)
  | Raises msg => Raises msg
  | OutOfFuel => OutOfFuel
  end.

(** One iteration of the round loop, as a step relation. *)
Inductive round_step : RoundState -> RoundState -> Prop :=
| round_step_intro st st' :
    round_continues st = true ->
    round_body st = Ok st' ->
    round_step st st'.

(** The states the loop head is reached in. *)
Inductive round_reaches (st0 : RoundState) : RoundState -> Prop :=
| reaches_start : round_reaches st0 st0
| reaches_next st st' :
    round_reaches st0 st -> round_step st st' -> round_reaches st0 st'.

(** *** Match *)

(** The variables of the loop of [play_match]. *)
Record MatchState : Type := mkMatchState {
  your_wins : nat;
  opponent_wins : nat;
  play_by_play_description : list string;
  is_your_turn_first : bool;
  match_rng : RngState
}.

(** How the match loop obtains [is_round_your_win, round_description]
    for a round, lines 182-187: the call of [play_round] and the
    unpacking of the tuple it returns into the two names (names are
    bound by position when the lengths agree, and the statement raises
    when they do not). *)
Definition run_round (fuel : nat) (your_assignments opponent_assignments : string)
    (round : nat) (is_your_turn_first : bool) (rng_engine : RngState)
  : outcome (bool * list string * RngState) :=
  match play_round fuel (path_join your_assignments (round_file round))
                   (path_join opponent_assignments (round_file round))
                   is_your_turn_first rng_engine with
  | Returns (r, rng_engine) =>
      match unpack_check 2 RoundResult_arity with
      | Ok _ => let '(is_round_your_win, round_description, _) := r in
                Returns (is_round_your_win, round_description, rng_engine)
      | Err msg => Raises msg
      end
  | Raises msg => Raises msg
  | OutOfFuel => OutOfFuel
  end.

(** The rest of the loop body, lines 188-205; the flag says whether
    the loop is left by [break]. *)
Definition tally_round (round : nat) (is_round_your_win : bool)
    (round_description : list string) (rng_engine : RngState) (ms : MatchState)
  : MatchState * bool :=
  let round_description := map (fun turn_description => TAB +:+ turn_description)
                               round_description in
  let log := play_by_play_description ms ++ round_description in
  let '(your_wins, opponent_wins, round_outcome) :=
    if is_round_your_win then (S (your_wins ms), opponent_wins ms, "WIN")
    else (your_wins ms, S (opponent_wins ms), "LOSS") in
  let score := str_nat your_wins +:+ "-" +:+ str_nat opponent_wins in
  let log := log ++ [NL +:+ "Outcome: " +:+ round_outcome +:+ ". Series Score: "
                     +:+ score +:+ "."] in
  let is_your_turn_first := negb (is_your_turn_first ms) in
  let is_match_over := (your_wins =? N_WINS)%nat || (opponent_wins =? N_WINS)%nat in
  let log :=
    if is_match_over
    then log ++ [NL +:+ DASHES +:+ " " +:+ round_outcome +:+ " " +:+ score
                 +:+ ". " +:+ DASHES]
    else log in
  ({| your_wins := your_wins; opponent_wins := opponent_wins;
      play_by_play_description := log;
      is_your_turn_first := is_your_turn_first;
      match_rng := rng_engine |}, is_match_over).

(** The [for] loop over the rounds, lines 180-205, for a given way
    [runner] of obtaining a round's outcome. *)
Fixpoint match_loop
    (runner : nat -> bool -> RngState -> outcome (bool * list string * RngState))
    (rounds : list nat) (ms : MatchState) : outcome MatchState :=
  match rounds with
  | [] => Returns ms
  | round :: rounds =>
      let ms := {| your_wins := your_wins ms; opponent_wins := opponent_wins ms;
                   play_by_play_description :=
                     play_by_play_description ms
                     ++ [NL +:+ DASHES +:+ " Round " +:+ str_nat round +:+ ". " +:+ DASHES];
                   is_your_turn_first := is_your_turn_first ms;
                   match_rng := match_rng ms |} in
      match runner round (is_your_turn_first ms) (match_rng ms) with
      | Returns (is_round_your_win, round_description, rng_engine) =>
          match tally_round round is_round_your_win round_description rng_engine ms with
          | (ms, true) => Returns ms
          | (ms, false) => match_loop runner rounds ms
          end
      | Raises msg => Raises msg
      | OutOfFuel => OutOfFuel
      end
  end.

(** The state in which the match loop is entered, lines 177-179. *)
Definition match_start (rng_engine : RngState) : MatchState :=
  let '(is_your_turn_first, rng_engine) := rng 50 rng_engine in
  {| your_wins := 0; opponent_wins := 0; play_by_play_description := [];
     is_your_turn_first := is_your_turn_first; match_rng := rng_engine |}.

(** The value returned after the loop, line 207. *)
Definition match_result (ms : MatchState) : bool * list string :=
  ((opponent_wins ms <? your_wins ms)%nat, play_by_play_description ms).

(** [play_match], lines 161-207. *)
Definition play_match (fuel : nat) (your_assignments opponent_assignments : string)
    (rng_engine : RngState) : outcome (bool * list string) :=
  match match_loop (run_round fuel your_assignments opponent_assignments)
                   (seq 1 N_ROUNDS) (match_start rng_engine) with
  | Returns ms => Returns (match_result ms)
  | Raises msg => Raises msg
  | OutOfFuel => OutOfFuel
  end.

End Engine.

Arguments your_team {RngState} _.
Arguments opponent_team {RngState} _.
Arguments your_index {RngState} _.
Arguments opponent_index {RngState} _.
Arguments is_your_turn {RngState} _.
Arguments battle_log {RngState} _.
Arguments round_rng {RngState} _.
Arguments your_wins {RngState} _.
Arguments opponent_wins {RngState} _.
Arguments play_by_play_description {RngState} _.
Arguments is_your_turn_first {RngState} _.
Arguments match_rng {RngState} _.
Arguments play_turn {RngState} rng _ _ _ _.
Arguments round_body {RngState} rng st.
Arguments round_loop {RngState} rng fuel st.
Arguments round_start {RngState} read_data _ _ _ _.
Arguments round_result {RngState} st.
Arguments round_continues {RngState} st.
Arguments play_round {RngState} rng read_data fuel _ _ _ _.
Arguments round_step {RngState} rng _ _.
Arguments round_reaches {RngState} rng _ _.
Arguments run_round {RngState} rng read_data fuel _ _ _ _ _.
Arguments tally_round {RngState} round _ _ _ _.
Arguments match_loop {RngState} runner rounds ms.
Arguments match_start {RngState} rng _.
Arguments match_result {RngState} ms.
Arguments play_match {RngState} rng read_data fuel _ _ _.

(** ** A scripted engine and sample teams *)

(** An engine that answers from a script, then [False] for ever. *)
Definition scripted_rng (probability : Q) (script : list bool) : bool * list bool :=
  match script with
  | [] => (false, [])
  | answer :: script => (answer, script)
  end.

(** An engine that also records the probabilities it was asked for. *)
Definition logging_rng {RngState : Type} (rng : Q -> RngState -> bool * RngState)
    (probability : Q) (g : RngState * list Q) : bool * (RngState * list Q) :=
  let '(answer, inner) := rng probability (fst g) in
  (answer, (inner, snd g ++ [probability])).

(** A loader that serves one team under [yours...] and one under any
    other path. *)
Definition two_team_loader (yours theirs : Team) (path : string) : Team :=
  if String.prefix "yours" path then yours else theirs.

Definition no_damage_stats : DamageStats :=
  {| damage_dealt := 0; damage_taken := 0; damage_mitigated := 0; kills := 0 |}.

Definition plain_attack (p m : Q) : Attack :=
  {| damage := {| physical := p; magic := m |}; stat_updates_to_self := None |}.

(** Deals 20 physical damage; armor 20, magic resistance 80. *)
Definition knight : BaseCharacter :=
  {| name := "Knight"; basic_attack := plain_attack 20 0;
     special_attack := plain_attack 10 10;
     effective_stats := {| current_hp := 30; armor := 20; magic_resistance := 80;
                           special_trigger_chance := 25 |};
     damage_stats := no_damage_stats |}.

(** No armor, no magic resistance, 15 health. *)
Definition squire : BaseCharacter :=
  {| name := "Squire"; basic_attack := plain_attack 5 0;
     special_attack := plain_attack 0 5;
     effective_stats := {| current_hp := 15; armor := 0; magic_resistance := 0;
                           special_trigger_chance := 10 |};
     damage_stats := no_damage_stats |}.

(** Its attack costs the attacker 10 health; it has 5. *)
Definition berserker : BaseCharacter :=
  {| name := "Berserker";
     basic_attack := {| damage := {| physical := 20; magic := 0 |};
                        stat_updates_to_self := Some (Stats_current_hp (-10)) |};
     special_attack := plain_attack 0 0;
     effective_stats := {| current_hp := 5; armor := 0; magic_resistance := 0;
                           special_trigger_chance := 0 |};
     damage_stats := no_damage_stats |}.

(** A character that is loaded with no health left. *)
Definition ghost : BaseCharacter :=
  set_effective_stats squire (Stats_current_hp 0).

(** ** Vocabulary of the statements *)

(** A character that can still fight. *)
Definition alive (c : BaseCharacter) : Prop := 0 < current_hp (effective_stats c).

(** Who attacks and who defends in a turn, lines 86-87. *)
Definition attacker (is_your_turn : bool) (yours theirs : BaseCharacter) : BaseCharacter :=
  if is_your_turn then yours else theirs.
Definition defender (is_your_turn : bool) (yours theirs : BaseCharacter) : BaseCharacter :=
  if is_your_turn then theirs else yours.

Section Draws.

Context {RngState : Type} (rng : Q -> RngState -> bool * RngState).

(** The first draw of a turn, lines 89-90. *)
Definition special_roll (att : BaseCharacter) (g : RngState) : bool * RngState :=
  rng (special_trigger_chance (effective_stats att)) g.

(** The attack it selects, line 91. *)
Definition chosen_attack (att : BaseCharacter) (g : RngState) : Attack :=
  if fst (special_roll att g) then special_attack att else basic_attack att.

(** The chance of the second draw, line 96. *)
Definition turn_miss_chance (att def : BaseCharacter) (g : RngState) : Q :=
  calculate_miss_chance (damage (chosen_attack att g)) (effective_stats def).

(** The second draw of a turn, line 97. *)
Definition miss_roll (att def : BaseCharacter) (g : RngState) : bool * RngState :=
  rng (turn_miss_chance att def g) (snd (special_roll att g)).

End Draws.

Section RoundInvariants.

Context {RngState : Type}.

(** Both indices stay within the bounds of their teams. *)
Definition in_bounds (st : RoundState RngState) : Prop :=
  (your_index st <= length (your_team st))%nat
  /\ (opponent_index st <= length (opponent_team st))%nat.

(** The characters from the current index on have health left. *)
Definition fighters_alive (st : RoundState RngState) : Prop :=
  (forall i c, (your_index st <= i)%nat -> your_team st !! i = Some c -> alive c)
  /\ (forall i c, (opponent_index st <= i)%nat ->
                  opponent_team st !! i = Some c -> alive c).

End RoundInvariants.

(** A way of obtaining round outcomes that reads them from a script:
    the match loop run on it is the series logic of lines 188-207 on
    given round outcomes. *)
Definition scripted_runner {RngState : Type} (outcomes : list bool)
    (round : nat) (is_your_turn_first : bool) (g : RngState)
  : outcome (bool * list string * RngState) :=
  match outcomes !! (round - 1)%nat with
  | Some is_round_your_win => Returns (is_round_your_win, [], g)
  | None => Raises "no outcome scripted for this round"
  end.

(** Rounds won and lost among given outcomes. *)
Definition wins_in (outcomes : list bool) : nat :=
  length (List.filter (fun w => w) outcomes).
Definition losses_in (outcomes : list bool) : nat :=
  length (List.filter negb outcomes).

(** The narration of a hit, line 110. *)
Definition hit_text (att def : BaseCharacter) (total_damage : Q) : string :=
  name att +:+ " hit " +:+ name def +:+ " for " +:+ format_2f total_damage +:+ " damage.".

(** The clause added when the defender falls, line 113. *)
Definition fainted_text (def : BaseCharacter) : string :=
  " " +:+ name def +:+ " has fainted.".

(** ** Vocabulary of the further properties *)

(** A character with no health left. *)
Definition defeated (c : BaseCharacter) : Prop := current_hp (effective_stats c) <= 0.

(** The attacker's stats once the updates of its attack are applied,
    lines 93-94. *)
Definition self_updated (att : BaseCharacter) (attack : Attack) : Stats :=
  match stat_updates_to_self attack with
  | Some updates => add_stat_changes (effective_stats att) updates
  | None => effective_stats att
  end.

Definition total_kills (team : Team) : Z :=
  foldr (fun c acc => (kills (damage_stats c) + acc)%Z) 0%Z team.

(** An engine without state that always gives the same answer. *)
Definition constant_rng (answer : bool) (probability : Q) (g : unit) : bool * unit :=
  (answer, tt).

(** ** The bot ([your_bot.py]) *)

(** The two attributes of [YourBot] that [__init__] creates, lines
    27-29, and that [process_previous_round_stats] assigns. *)
Record YourBot : Type := mkYourBot {
  opponent_damage_dealers : list (nat * Q);
  team_damage_dealers : list (nat * Q)
}.

(** [YourBot.__init__], lines 27-29. *)
Definition YourBot_init : YourBot :=
  {| opponent_damage_dealers := []; team_damage_dealers := [] |}.

(** [YourBot.process_previous_round_stats], lines 58-77. *)
Definition process_previous_round_stats (self : YourBot) (is_your_win : bool)
    (your_team opponent_team : Team) : YourBot :=
  let self :=
    {| opponent_damage_dealers :=
         imap (fun char_idx char => (char_idx, damage_dealt (damage_stats char)))
              opponent_team;
       team_damage_dealers := team_damage_dealers self |} in
  {| opponent_damage_dealers := opponent_damage_dealers self;
     team_damage_dealers :=
       imap (fun char_idx char => (char_idx, damage_dealt (damage_stats char)))
            your_team |}.

(** * Properties *)

(** ** Comparisons *)

Lemma py_le_true (x y : Q) : py_le x y = true <-> x <= y.
Proof. unfold py_le. apply Qle_bool_iff. Qed.

Lemma py_le_false (x y : Q) : py_le x y = false <-> y < x.
Proof.
  unfold py_le. split; intros H.
  - apply Qnot_le_lt. intros Hle. apply Qle_bool_iff in Hle. congruence.
  - destruct (Qle_bool x y) eqn:E; [|reflexivity].
    apply Qle_bool_iff in E. exfalso. exact (Qlt_not_le _ _ H E).
Qed.

Lemma py_gt_true (x y : Q) : py_gt x y = true <-> y < x.
Proof.
  unfold py_gt. rewrite negb_true_iff. apply py_le_false.
Qed.

Lemma py_truthy_false (x : Q) : py_truthy x = false -> x == 0.
Proof.
  unfold py_truthy. rewrite negb_false_iff. apply Qeq_bool_iff.
Qed.

(** Adding an unset (zero) delta gives back the very same number. *)
Lemma Qplus_0_r_eq (x : Q) : x + 0 = x.
Proof.
  destruct x as [n d]. unfold Qplus; simpl.
  rewrite Z.mul_1_r, Z.add_0_r, Pos.mul_1_r. reflexivity.
Qed.

(** ** Damage model *)

(** C2: for a defender whose stats are present, [calculate_damage_taken]
    returns the pair made of the health delta
    [-((physical - mitigated_physical) + (magic - mitigated_magic))] and
    of the mitigated amount [mitigated_physical + mitigated_magic]:
    skipping the term of a damage field that is zero does not change the
    value of the sum. *)
Theorem calculate_damage_taken_formula (d : Damage) (s : Stats) :
  exists health_delta mitigated_amount : Q,
    calculate_damage_taken d (Some s) = Ok (health_delta, mitigated_amount) /\
    health_delta ==
      - ((physical d - physical d * armor s / 100)
         + (magic d - magic d * magic_resistance s / 100)) /\
    mitigated_amount ==
      physical d * armor s / 100 + magic d * magic_resistance s / 100.
Proof.
  unfold calculate_damage_taken.
  eexists; eexists; split; [reflexivity|]. split; [|reflexivity].
  destruct (py_truthy (physical d)) eqn:Hp; destruct (py_truthy (magic d)) eqn:Hm;
    try (apply py_truthy_false in Hp; rewrite Hp);
    try (apply py_truthy_false in Hm; rewrite Hm);
    field.
Qed.

(** C3: [calculate_miss_chance] is the defender's magic resistance over
    ten when the magic damage is strictly greater than the physical
    damage and the defender's armor over ten otherwise; with both damages
    10, armor 20 and magic resistance 80 it is 2. *)
Theorem calculate_miss_chance_branches (d : Damage) (s : Stats) :
  (physical d < magic d -> calculate_miss_chance d s = magic_resistance s / 10) /\
  (~ physical d < magic d -> calculate_miss_chance d s = armor s / 10) /\
  (physical d == 10 -> magic d == 10 -> armor s == 20 -> magic_resistance s == 80 ->
   calculate_miss_chance d s == 2).
Proof.
  unfold calculate_miss_chance.
  destruct (py_gt (magic d) (physical d)) eqn:E.
  - apply py_gt_true in E. repeat split; try tauto.
    intros Hp Hm _ _. rewrite Hp, Hm in E. exfalso. exact (Qlt_irrefl _ E).
  - repeat split.
    + intros H. apply py_gt_true in H. congruence.
    + intros _ _ Ha _. rewrite Ha. reflexivity.
Qed.

Lemma calculate_miss_chance_branches_witness :
  calculate_miss_chance {| physical := 10; magic := 10 |} (effective_stats knight) == 2 /\
  calculate_miss_chance {| physical := 0; magic := 5 |} (effective_stats knight) = 80 / 10 /\
  calculate_miss_chance {| physical := 20; magic := 0 |} (effective_stats knight) = 20 / 10.
Proof.
  split; [|split].
  - apply (calculate_miss_chance_branches {| physical := 10; magic := 10 |}
             (effective_stats knight)); reflexivity.
  - apply (calculate_miss_chance_branches {| physical := 0; magic := 5 |}
             (effective_stats knight)). reflexivity.
  - apply (calculate_miss_chance_branches {| physical := 20; magic := 0 |}
             (effective_stats knight)). intros H; discriminate H.
Defined.

(** ** Turn *)

Section Turn.

Context {RngState : Type} (rng : Q -> RngState -> bool * RngState).

(** The precondition test of line 83. *)
Lemma dead_check_false (yc oc : BaseCharacter) :
  existsb (fun char => py_le (current_hp (effective_stats char)) 0) [yc; oc] = false
  <-> alive yc /\ alive oc.
Proof.
  unfold alive. cbn [existsb]. rewrite orb_false_r, orb_false_iff.
  rewrite !py_le_false. tauto.
Qed.

Lemma dead_check_true (yc oc : BaseCharacter) :
  existsb (fun char => py_le (current_hp (effective_stats char)) 0) [yc; oc] = true
  <-> current_hp (effective_stats yc) <= 0 \/ current_hp (effective_stats oc) <= 0.
Proof.
  cbn [existsb]. rewrite orb_false_r, orb_true_iff.
  rewrite !py_le_true. tauto.
Qed.

(** A turn between two characters that can fight returns a narration. *)
Lemma play_turn_alive_returns (yc oc : BaseCharacter) (turn : bool) (g : RngState) :
  alive yc -> alive oc ->
  exists descr st, play_turn rng yc oc turn g = (Ok descr, st).
Proof.
  intros Hy Ho. unfold play_turn.
  rewrite (proj2 (dead_check_false yc oc) (conj Hy Ho)).
  destruct (rng _ g) as [sp g1].
  destruct (rng _ g1) as [ms g2].
  destruct ms; [eauto|].
  cbn [calculate_damage_taken].
  match goal with |- context [if ?b then _ else _] =>
    destruct b end; eauto.
Qed.

(** C5: [play_turn] raises exactly when one of the two combatants has
    no health left, and it does so with both characters and the engine
    as they were passed in; when both have health left it returns. *)
Theorem play_turn_raises_iff_dead (yc oc : BaseCharacter) (turn : bool) (g : RngState) :
  ((exists msg st, play_turn rng yc oc turn g = (Err msg, st)) <->
   (current_hp (effective_stats yc) <= 0 \/ current_hp (effective_stats oc) <= 0)) /\
  (current_hp (effective_stats yc) <= 0 \/ current_hp (effective_stats oc) <= 0 ->
   play_turn rng yc oc turn g
   = (Err "One of the characters is already dead.", (yc, oc, g))) /\
  (alive yc -> alive oc ->
   exists descr st, play_turn rng yc oc turn g = (Ok descr, st)).
Proof.
  assert (Hdead : current_hp (effective_stats yc) <= 0
                  \/ current_hp (effective_stats oc) <= 0 ->
                  play_turn rng yc oc turn g
                  = (Err "One of the characters is already dead.", (yc, oc, g))).
  { intros H. unfold play_turn.
    rewrite (proj2 (dead_check_true yc oc) H). reflexivity. }
  split; [split|split].
  - intros (msg & st & Hraise).
    destruct (existsb (fun char => py_le (current_hp (effective_stats char)) 0) [yc; oc])
      eqn:E.
    + apply dead_check_true. exact E.
    + apply dead_check_false in E. destruct E as [Hy Ho].
      destruct (play_turn_alive_returns yc oc turn g Hy Ho) as (descr & st' & Hok).
      congruence.
  - intros H. eauto.
  - exact Hdead.
  - apply play_turn_alive_returns.
Qed.

(** The form of a turn that starts with both characters alive: the two
    draws, then the branch the second draw selects. *)
Ltac enter_turn yc oc Hy Ho :=
  unfold play_turn;
  rewrite (proj2 (dead_check_false yc oc) (conj Hy Ho)).

(** C4: when the attack hits, the defender's health becomes its health
    plus the computed delta (no clamping), its mitigated counter grows
    by the mitigated amount, the attacker's dealt counter and the
    defender's taken counter grow by the raw total
    [physical + magic], and the attacker's kill counter grows by one,
    with the fainted clause appended to the narration, exactly when the
    defender's health ends at or below zero. *)
Theorem play_turn_hit (yc oc : BaseCharacter) (turn : bool) (g : RngState) :
  alive yc -> alive oc ->
  let att := attacker turn yc oc in
  let def := defender turn yc oc in
  let attack := chosen_attack rng att g in
  let total_damage := physical (damage attack) + magic (damage attack) in
  fst (miss_roll rng att def g) = false ->
  exists descr yc' oc' g' health_delta mitigated,
    play_turn rng yc oc turn g = (Ok descr, (yc', oc', g')) /\
    calculate_damage_taken (damage attack) (Some (effective_stats def))
    = Ok (health_delta, mitigated) /\
    let att' := attacker turn yc' oc' in
    let def' := defender turn yc' oc' in
    current_hp (effective_stats def') = current_hp (effective_stats def) + health_delta /\
    damage_mitigated (damage_stats def') = damage_mitigated (damage_stats def) + mitigated /\
    damage_dealt (damage_stats att') = damage_dealt (damage_stats att) + total_damage /\
    damage_taken (damage_stats def') = damage_taken (damage_stats def) + total_damage /\
    (current_hp (effective_stats def') <= 0 ->
     kills (damage_stats att') = (kills (damage_stats att) + 1)%Z /\
     descr = hit_text att def total_damage +:+ fainted_text def) /\
    (0 < current_hp (effective_stats def') ->
     kills (damage_stats att') = kills (damage_stats att) /\
     descr = hit_text att def total_damage).
Proof.
  intros Hy Ho att def attack total_damage Hhit.
  subst total_damage attack att def.
  unfold miss_roll, turn_miss_chance, chosen_attack, special_roll in *.
  enter_turn yc oc Hy Ho.
  destruct turn; cbn [attacker defender] in *;
    destruct (rng _ g) as [sp g1]; cbn [fst snd] in *;
    destruct (rng _ g1) as [ms g2]; cbn [fst] in Hhit; subst ms;
    cbn [calculate_damage_taken];
    match goal with |- context [if py_le ?h 0 then _ else _] =>
      destruct (py_le h 0) eqn:E end;
    do 6 eexists; (split; [reflexivity|]); (split; [reflexivity|]);
    cbn [attacker defender];
    destruct (stat_updates_to_self _);
    cbn -[Qplus Qminus Qmult Qdiv Qopp Qle Qlt format_2f] in *;
    first [apply py_le_true in E | apply py_le_false in E];
    repeat split; try reflexivity;
    exfalso; eapply Qlt_not_le; eassumption.
Qed.

(** C6: when the attack misses, the defender leaves the turn as it
    entered it: same stats (health included), same counters. *)
Theorem play_turn_miss_defender_unchanged
    (yc oc : BaseCharacter) (turn : bool) (g : RngState) :
  alive yc -> alive oc ->
  fst (miss_roll rng (attacker turn yc oc) (defender turn yc oc) g) = true ->
  exists descr yc' oc' g',
    play_turn rng yc oc turn g = (Ok descr, (yc', oc', g')) /\
    defender turn yc' oc' = defender turn yc oc /\
    descr = name (attacker turn yc oc) +:+ " missed the attack on "
            +:+ name (defender turn yc oc) +:+ ".".
Proof.
  intros Hy Ho Hmiss.
  unfold miss_roll, turn_miss_chance, chosen_attack, special_roll in *.
  enter_turn yc oc Hy Ho.
  destruct turn; cbn [attacker defender] in *;
    destruct (rng _ g) as [sp g1]; cbn [fst snd] in *;
    destruct (rng _ g1) as [ms g2]; cbn [fst] in Hmiss; subst ms;
    do 4 eexists; (split; [reflexivity|]); cbn [attacker defender];
    (split; [reflexivity|]);
    destruct (stat_updates_to_self _); reflexivity.
Qed.

(** The engine a completed turn leaves behind is the engine after the
    two draws. *)
Lemma play_turn_engine (yc oc : BaseCharacter) (turn : bool) (g : RngState)
    (descr : string) (yc' oc' : BaseCharacter) (g' : RngState) :
  play_turn rng yc oc turn g = (Ok descr, (yc', oc', g')) ->
  g' = snd (miss_roll rng (attacker turn yc oc) (defender turn yc oc) g).
Proof.
  unfold miss_roll, turn_miss_chance, chosen_attack, special_roll, play_turn.
  destruct (existsb _ _); [discriminate|].
  destruct turn; cbn [attacker defender];
    destruct (rng _ g) as [sp g1]; cbn [fst snd];
    destruct (rng _ g1) as [ms g2]; cbn [snd];
    destruct ms; cbn [calculate_damage_taken];
    try match goal with |- context [if py_le ?h 0 then _ else _] =>
      destruct (py_le h 0) end;
    intros H; injection H; intros; subst; reflexivity.
Qed.

End Turn.

(** ** The draws of a turn *)

Section TurnDraws.

Context {RngState : Type} (rng : Q -> RngState -> bool * RngState).

Lemma logging_rng_fst (p : Q) (g : RngState) (log : list Q) :
  fst (logging_rng rng p (g, log)) = fst (rng p g).
Proof. unfold logging_rng. cbn [fst]. destruct (rng p g). reflexivity. Qed.

Lemma logging_rng_snd (p : Q) (g : RngState) (log : list Q) :
  snd (logging_rng rng p (g, log)) = (snd (rng p g), log ++ [p]).
Proof. unfold logging_rng. cbn [fst snd]. destruct (rng p g). reflexivity. Qed.

(** C9: a turn that returns has asked the engine exactly twice: first
    with the attacker's special-trigger chance, then with the miss
    chance of the selected attack against the defender; this holds for
    hits and misses alike, and the engine left behind is the engine
    after these two draws. *)
Theorem play_turn_two_draws (yc oc : BaseCharacter) (turn : bool)
    (g : RngState) (log : list Q) (descr : string) (yc' oc' : BaseCharacter)
    (g' : RngState) (log' : list Q) :
  play_turn (logging_rng rng) yc oc turn (g, log) = (Ok descr, (yc', oc', (g', log'))) ->
  let att := attacker turn yc oc in
  let def := defender turn yc oc in
  log' = log ++ [special_trigger_chance (effective_stats att);
                 turn_miss_chance rng att def g] /\
  g' = snd (miss_roll rng att def g).
Proof.
  intros H att def. apply play_turn_engine in H.
  unfold miss_roll, turn_miss_chance, chosen_attack, special_roll in *.
  fold att def in H.
  rewrite logging_rng_snd, logging_rng_fst in H.
  rewrite logging_rng_snd in H.
  injection H as -> ->. split; [|reflexivity].
  rewrite <- app_assoc. reflexivity.
Qed.

End TurnDraws.

(** ** Round *)

Section Round.

Context {RngState : Type} (rng : Q -> RngState -> bool * RngState).

Implicit Types st : RoundState RngState.

Lemma round_continues_true st :
  round_continues st = true <->
  (your_index st < length (your_team st))%nat
  /\ (opponent_index st < length (opponent_team st))%nat.
Proof.
  unfold round_continues. rewrite andb_true_iff, !Nat.ltb_lt. tauto.
Qed.

(** What an iteration that completes has done. *)
Lemma round_body_Ok st st' :
  round_body rng st = Ok st' ->
  exists yc oc descr yc' oc' g',
    your_team st !! your_index st = Some yc /\
    opponent_team st !! opponent_index st = Some oc /\
    play_turn rng yc oc (is_your_turn st) (round_rng st) = (Ok descr, (yc', oc', g')) /\
    st' = {| your_team := <[your_index st := yc']> (your_team st);
             opponent_team := <[opponent_index st := oc']> (opponent_team st);
             your_index := if py_le (current_hp (effective_stats yc')) 0
                           then S (your_index st) else your_index st;
             opponent_index := if py_le (current_hp (effective_stats oc')) 0
                               then S (opponent_index st) else opponent_index st;
             is_your_turn := negb (is_your_turn st);
             battle_log := battle_log st ++ [descr];
             round_rng := g' |}.
Proof.
  unfold round_body.
  destruct (your_team st !! your_index st) as [yc|]; [|discriminate].
  destruct (opponent_team st !! opponent_index st) as [oc|]; [|discriminate].
  destruct (play_turn rng yc oc (is_your_turn st) (round_rng st))
    as [[descr|msg] [[yc' oc'] g']] eqn:Et; [|discriminate].
  intros H; injection H as <-.
  exists yc, oc, descr, yc', oc', g'. repeat split. exact Et.
Qed.

Lemma round_step_in_bounds st st' :
  in_bounds st -> round_step rng st st' -> in_bounds st'.
Proof.
  intros _ Hs. destruct Hs as [st st' Hc Hb].
  apply round_continues_true in Hc. destruct Hc as [Hy Ho].
  apply round_body_Ok in Hb.
  destruct Hb as (yc & oc & descr & yc' & oc' & g' & _ & _ & _ & ->).
  unfold in_bounds;
    cbn [your_index your_team opponent_index opponent_team].
  rewrite !length_insert.
  destruct (py_le _ 0), (py_le _ 0); lia.
Qed.

Lemma round_reaches_in_bounds st0 st :
  in_bounds st0 -> round_reaches rng st0 st -> in_bounds st.
Proof.
  intros H0 Hr. induction Hr as [|st st' _ IH Hs]; [exact H0|].
  exact (round_step_in_bounds st st' IH Hs).
Qed.

Lemma insert_alive (team : Team) (k n i : nat) (c' c : BaseCharacter) :
  (forall i c, (k <= i)%nat -> team !! i = Some c -> alive c) ->
  n = (if py_le (current_hp (effective_stats c')) 0 then S k else k) ->
  (n <= i)%nat -> <[k := c']> team !! i = Some c -> alive c.
Proof.
  intros Hteam -> Hi. rewrite list_lookup_insert.
  destruct (decide (k = i /\ (k < length team)%nat)) as [[-> _]|_].
  - intros [= <-].
    destruct (py_le (current_hp (effective_stats c')) 0) eqn:E; [lia|].
    apply py_le_false in E. exact E.
  - apply Hteam. destruct (py_le _ 0); lia.
Qed.

Lemma round_step_fighters_alive st st' :
  fighters_alive st -> round_step rng st st' -> fighters_alive st'.
Proof.
  intros Hinv Hs. destruct Hs as [st st' _ Hb]. destruct Hinv as [Hy Ho].
  apply round_body_Ok in Hb.
  destruct Hb as (yc & oc & descr & yc' & oc' & g' & _ & _ & _ & ->).
  split; cbn [your_index your_team opponent_index opponent_team]; intros i c.
  - apply (insert_alive _ _ _ _ yc'); [exact Hy | reflexivity].
  - apply (insert_alive _ _ _ _ oc'); [exact Ho | reflexivity].
Qed.

Lemma round_reaches_fighters_alive st0 st :
  fighters_alive st0 -> round_reaches rng st0 st -> fighters_alive st.
Proof.
  intros H0 Hr. induction Hr as [|st st' _ IH Hs]; [exact H0|].
  exact (round_step_fighters_alive st st' IH Hs).
Qed.

(** With fighters alive, the next iteration fights two characters
    that have health left, and completes. *)
Lemma round_body_fighters st :
  fighters_alive st -> round_continues st = true ->
  exists yc oc,
    your_team st !! your_index st = Some yc /\
    opponent_team st !! opponent_index st = Some oc /\
    alive yc /\ alive oc /\
    exists st', round_body rng st = Ok st'.
Proof.
  intros [Hy Ho] Hc. apply round_continues_true in Hc. destruct Hc as [Hly Hlo].
  destruct (lookup_lt_is_Some_2 _ _ Hly) as [yc Eyc].
  destruct (lookup_lt_is_Some_2 _ _ Hlo) as [oc Eoc].
  assert (Ay : alive yc) by (apply (Hy (your_index st)); [lia | exact Eyc]).
  assert (Ao : alive oc) by (apply (Ho (opponent_index st)); [lia | exact Eoc]).
  exists yc, oc. repeat split; try assumption.
  unfold round_body. rewrite Eyc, Eoc.
  destruct (play_turn_alive_returns rng yc oc (is_your_turn st) (round_rng st) Ay Ao)
    as (descr & [[yc' oc'] g'] & ->).
  eexists; reflexivity.
Qed.

(** The loop and the step relation agree. *)
Lemma round_loop_Returns fuel : forall st0 st st',
  round_reaches rng st0 st ->
  round_loop rng fuel st = Returns st' ->
  round_reaches rng st0 st' /\ round_continues st' = false.
Proof.
  induction fuel as [|fuel IH]; intros st0 st st' Hr; cbn [round_loop];
    destruct (round_continues st) eqn:Hc; try discriminate;
    try (intros [= <-]; split; assumption).
  destruct (round_body rng st) as [st1|msg] eqn:Hb; [|discriminate].
  apply IH. eapply reaches_next; [exact Hr|]. constructor; assumption.
Qed.

Lemma round_loop_Raises fuel : forall st0 st msg,
  round_reaches rng st0 st ->
  round_loop rng fuel st = Raises msg ->
  exists st', round_reaches rng st0 st' /\ round_continues st' = true
              /\ round_body rng st' = Err msg.
Proof.
  induction fuel as [|fuel IH]; intros st0 st msg Hr; cbn [round_loop];
    destruct (round_continues st) eqn:Hc; try discriminate.
  destruct (round_body rng st) as [st1|msg'] eqn:Hb.
  - apply IH. eapply reaches_next; [exact Hr|]. constructor; assumption.
  - intros [= <-]. exists st. auto.
Qed.

(** A loop whose condition fails is left at once, whatever the fuel. *)
Lemma round_loop_exit fuel st :
  round_continues st = false -> round_loop rng fuel st = Returns st.
Proof. intros Hc. destruct fuel; cbn [round_loop]; rewrite Hc; reflexivity. Qed.

(** A run that returned returns the same with more fuel. *)
Lemma round_loop_more_fuel fuel : forall extra st st',
  round_loop rng fuel st = Returns st' ->
  round_loop rng (fuel + extra) st = Returns st'.
Proof.
  induction fuel as [|fuel IH]; intros extra st st'; cbn [round_loop].
  - destruct (round_continues st) eqn:Hc; [discriminate|].
    intros H. destruct (0 + extra)%nat; cbn [round_loop]; rewrite Hc; exact H.
  - cbn [Nat.add round_loop].
    destruct (round_continues st); [|auto].
    destruct (round_body rng st); [apply IH | discriminate].
Qed.

Context (read_data : string -> Team).

Lemma round_start_in_bounds (ya oa : string) (first : bool) (g : RngState) :
  in_bounds (round_start read_data ya oa first g).
Proof. unfold in_bounds; cbn. lia. Qed.

Lemma round_start_fighters_alive (ya oa : string) (first : bool) (g : RngState) :
  Forall alive (read_data ya) -> Forall alive (read_data oa) ->
  fighters_alive (round_start read_data ya oa first g).
Proof.
  intros Hy Ho. split; cbn; intros i c _ Hc.
  - exact (proj1 (Forall_lookup _ _) Hy i c Hc).
  - exact (proj1 (Forall_lookup _ _) Ho i c Hc).
Qed.

(** C1 (amended): when [play_round] returns, the loop has been left
    and [your_win] is true exactly when your index has not exhausted
    your team; in that case the opponent's index has exhausted the
    opponent's team.  When both indices have reached the lengths of
    their teams, your index has exhausted your team and [your_win] is
    false. *)
Theorem play_round_win_iff_not_exhausted (fuel : nat) (ya oa : string)
    (first : bool) (g : RngState) (r : RoundResult) (g' : RngState) :
  play_round rng read_data fuel ya oa first g = Returns (r, g') ->
  exists st,
    round_loop rng fuel (round_start read_data ya oa first g) = Returns st /\
    round_continues st = false /\
    r = round_result st /\ g' = round_rng st /\
    let your_win := fst (fst r) in
    (your_win = true <-> (your_index st < length (your_team st))%nat) /\
    (your_win = true -> opponent_index st = length (opponent_team st)) /\
    (your_win = false <-> your_index st = length (your_team st)) /\
    (your_index st = length (your_team st) ->
     opponent_index st = length (opponent_team st) -> your_win = false).
Proof.
  unfold play_round.
  destruct (round_loop rng fuel _) as [st| |] eqn:Hloop; try discriminate.
  intros [= <- <-]. exists st.
  destruct (round_loop_Returns fuel _ _ _ (reaches_start _ _ _) Hloop) as [Hr Hc].
  pose proof (round_reaches_in_bounds _ _ (round_start_in_bounds ya oa first g) Hr)
    as [By Bo].
  repeat (split; [first [reflexivity | assumption]|]).
  cbn [round_result fst].
  unfold round_continues in Hc. rewrite andb_false_iff, !Nat.ltb_ge in Hc.
  assert (Hwin : (your_index st <? length (your_team st))%nat = true
                 <-> (your_index st < length (your_team st))%nat)
    by apply Nat.ltb_lt.
  assert (Hloss : (your_index st <? length (your_team st))%nat = false
                  <-> (length (your_team st) <= your_index st)%nat)
    by apply Nat.ltb_ge.
  repeat split.
  - apply Hwin.
  - apply Hwin.
  - intros H. apply Hwin in H. lia.
  - intros H. apply Hloss in H. lia.
  - intros H. apply Hloss. lia.
  - intros H _. apply Hloss. lia.
Qed.

(** C7: when both loaded teams consist of characters with health
    left, every iteration of the round loop finds, at the two current
    indices, characters with health left and completes its turn, so
    that [play_round] never raises. *)
Theorem play_round_fights_only_the_living (ya oa : string) (first : bool)
    (g : RngState) :
  Forall alive (read_data ya) -> Forall alive (read_data oa) ->
  (forall st,
      round_reaches rng (round_start read_data ya oa first g) st ->
      round_continues st = true ->
      exists yc oc,
        your_team st !! your_index st = Some yc /\
        opponent_team st !! opponent_index st = Some oc /\
        alive yc /\ alive oc /\
        exists st', round_body rng st = Ok st') /\
  (forall fuel, exists res,
        play_round rng read_data fuel ya oa first g = Returns res
        \/ play_round rng read_data fuel ya oa first g = OutOfFuel).
Proof.
  intros Hy Ho.
  pose proof (round_start_fighters_alive ya oa first g Hy Ho) as H0.
  assert (Hiter : forall st,
             round_reaches rng (round_start read_data ya oa first g) st ->
             round_continues st = true ->
             exists yc oc,
               your_team st !! your_index st = Some yc /\
               opponent_team st !! opponent_index st = Some oc /\
               alive yc /\ alive oc /\
               exists st', round_body rng st = Ok st').
  { intros st Hr Hc. apply round_body_fighters; [|exact Hc].
    exact (round_reaches_fighters_alive _ _ H0 Hr). }
  split; [exact Hiter|].
  intros fuel. unfold play_round.
  destruct (round_loop rng fuel _) as [st|msg|] eqn:Hloop.
  - eexists; left; reflexivity.
  - exfalso.
    destruct (round_loop_Raises fuel _ _ _ (reaches_start _ _ _) Hloop)
      as (st' & Hr & Hc & Hb).
    destruct (Hiter st' Hr Hc) as (_ & _ & _ & _ & _ & _ & st'' & Hok).
    congruence.
  - exists (round_result (round_start read_data ya oa first g), g).
    right; reflexivity.
Qed.

(** C10: an empty team of yours decides the round at once as a loss,
    and an empty opponent team against a non-empty team of yours as a
    win: no turn is played, the log is empty, teams and engine are as
    loaded. *)
Theorem play_round_empty_team (fuel : nat) (ya oa : string) (first : bool)
    (g : RngState) :
  (read_data ya = [] ->
   play_round rng read_data fuel ya oa first g
   = Returns ((false, [], ([], read_data oa)), g)) /\
  (read_data ya <> [] -> read_data oa = [] ->
   play_round rng read_data fuel ya oa first g
   = Returns ((true, [], (read_data ya, [])), g)).
Proof.
  split.
  - intros Hy. unfold play_round. rewrite round_loop_exit.
    + unfold round_result, round_start; cbn. rewrite Hy. reflexivity.
    + unfold round_continues, round_start; cbn. rewrite Hy. reflexivity.
  - intros Hy Ho. unfold play_round. rewrite round_loop_exit.
    + unfold round_result, round_start; cbn. rewrite Ho.
      destruct (read_data ya); [congruence | reflexivity].
    + unfold round_continues, round_start; cbn. rewrite Ho.
      apply andb_false_r.
Qed.

End Round.

(** ** Match *)

Section Match.

Context {RngState : Type} (rng : Q -> RngState -> bool * RngState).
Context (read_data : string -> Team).

(** Two names cannot take the three values [play_round] returns. *)
Lemma unpack_round_result :
  unpack_check 2 RoundResult_arity = Err "too many values to unpack (expected 2)".
Proof. reflexivity. Qed.

(** Line 182 raises as soon as the call of [play_round] returns. *)
Lemma run_round_outcome (fuel : nat) (ya oa : string) (round : nat)
    (first : bool) (g : RngState) :
  match play_round rng read_data fuel (path_join ya (round_file round))
                   (path_join oa (round_file round)) first g with
  | Returns _ =>
      run_round rng read_data fuel ya oa round first g
      = Raises "too many values to unpack (expected 2)"
  | Raises msg => run_round rng read_data fuel ya oa round first g = Raises msg
  | OutOfFuel => run_round rng read_data fuel ya oa round first g = OutOfFuel
  end.
Proof.
  unfold run_round.
  destruct (play_round rng read_data fuel _ _ first g) as [[r g']| |];
    rewrite ?unpack_round_result; reflexivity.
Qed.

(** [play_match] never returns: it stops in its first round, with the
    exception of that round or with the unpacking error of line 182. *)
Lemma play_match_never_returns (fuel : nat) (ya oa : string) (g : RngState) :
  play_match rng read_data fuel ya oa g = OutOfFuel
  \/ exists msg, play_match rng read_data fuel ya oa g = Raises msg.
Proof.
  unfold play_match. cbn [N_ROUNDS seq match_loop].
  set (ms := match_start rng g).
  pose proof (run_round_outcome fuel ya oa 1 (is_your_turn_first ms) (match_rng ms))
    as H.
  cbn [is_your_turn_first match_rng].
  destruct (play_round rng read_data fuel _ _ _ _) as [res|msg|];
    rewrite H; eauto.
Qed.

(** The series logic on given round outcomes: the loop stops with the
    round in which a side reaches [N_WINS], which happens within
    [N_ROUNDS] rounds, and the match is won exactly when your wins
    exceed the opponent's. *)
Lemma match_loop_scripted (w1 w2 w3 w4 w5 : bool) (g : RngState) :
  let outcomes := [w1; w2; w3; w4; w5] in
  exists ms,
    match_loop (scripted_runner outcomes) (seq 1 N_ROUNDS) (match_start rng g)
    = Returns ms /\
    let played := (your_wins ms + opponent_wins ms)%nat in
    (played <= N_ROUNDS)%nat /\
    your_wins ms = wins_in (take played outcomes) /\
    opponent_wins ms = losses_in (take played outcomes) /\
    (your_wins ms = N_WINS \/ opponent_wins ms = N_WINS) /\
    (forall n, (n < played)%nat ->
               (wins_in (take n outcomes) < N_WINS)%nat
               /\ (losses_in (take n outcomes) < N_WINS)%nat) /\
    fst (match_result ms) = (opponent_wins ms <? your_wins ms)%nat.
Proof.
  unfold match_start. destruct (rng 50 g) as [first g1].
  destruct w1, w2, w3, w4, w5; eexists; (split; [vm_compute; reflexivity|]);
    cbn [your_wins opponent_wins Nat.add];
    (split; [vm_compute; lia|]);
    (split; [reflexivity|]); (split; [reflexivity|]);
    (split; [vm_compute; auto|]);
    (split; [|reflexivity]);
    intros n Hn; do 5 (destruct n as [|n]; [vm_compute; lia|]); lia.
Qed.

End Match.

(** ** The claims on the sample teams *)

Lemma knight_alive : alive knight.
Proof. reflexivity. Qed.

Lemma squire_alive : alive squire.
Proof. reflexivity. Qed.

(** Knight strikes Squire (15 health, no armor) for 20: health -5, the
    fainted clause, one kill. *)
Lemma play_turn_hit_witness :
  exists descr yc' oc' g',
    play_turn scripted_rng knight squire true [] = (Ok descr, (yc', oc', g')) /\
    kills (damage_stats yc') = 1%Z /\
    current_hp (effective_stats oc') == -5 /\
    descr = "Knight hit Squire for 20.00 damage. Squire has fainted.".
Proof.
  destruct (play_turn_hit scripted_rng knight squire true []
              knight_alive squire_alive eq_refl)
    as (descr & yc' & oc' & g' & hd & mit & Hrun & Hcalc & Hhp & _ & _ & _ & Hko & _).
  exists descr, yc', oc', g'.
  cbn [attacker defender] in *.
  vm_compute in Hcalc. injection Hcalc as <- <-.
  assert (Hle : current_hp (effective_stats oc') <= 0)
    by (rewrite Hhp; discriminate).
  destruct (Hko Hle) as [Hk Hd].
  split; [exact Hrun|]. split; [exact Hk|]. split; [rewrite Hhp; reflexivity|].
  exact Hd.
Defined.

Lemma play_turn_raises_iff_dead_witness :
  play_turn scripted_rng knight ghost true []
  = (Err "One of the characters is already dead.", (knight, ghost, []))
  /\ exists descr st, play_turn scripted_rng knight squire false [] = (Ok descr, st).
Proof.
  split.
  - apply (play_turn_raises_iff_dead scripted_rng knight ghost true []).
    right. discriminate.
  - apply (play_turn_raises_iff_dead scripted_rng knight squire false []).
    + exact knight_alive.
    + exact squire_alive.
Defined.

(** The script answers "no special, missed". *)
Lemma play_turn_miss_defender_unchanged_witness :
  exists descr yc' oc' g',
    play_turn scripted_rng knight squire true [false; true]
    = (Ok descr, (yc', oc', g')) /\
    defender true yc' oc' = defender true knight squire /\
    descr = name (attacker true knight squire) +:+ " missed the attack on "
            +:+ name (defender true knight squire) +:+ ".".
Proof.
  apply (play_turn_miss_defender_unchanged scripted_rng knight squire true [false; true]).
  - exact knight_alive.
  - exact squire_alive.
  - reflexivity.
Defined.

(** One hit and one miss: two draws each, special chance first. *)
Lemma play_turn_two_draws_witness :
  (exists descr yc' oc' g' log',
      play_turn (logging_rng scripted_rng) knight squire true ([], [])
      = (Ok descr, (yc', oc', (g', log'))) /\
      log' = [] ++ [special_trigger_chance (effective_stats knight);
                    turn_miss_chance scripted_rng knight squire []] /\
      g' = snd (miss_roll scripted_rng knight squire []))
  /\
  (exists descr yc' oc' g' log',
      play_turn (logging_rng scripted_rng) knight squire false ([true; true; false], [])
      = (Ok descr, (yc', oc', (g', log'))) /\
      log' = [] ++ [special_trigger_chance (effective_stats squire);
                    turn_miss_chance scripted_rng squire knight [true; true; false]] /\
      g' = snd (miss_roll scripted_rng squire knight [true; true; false])).
Proof.
  split.
  - do 5 eexists. split; [vm_compute; reflexivity|].
    eapply (play_turn_two_draws scripted_rng knight squire true [] []).
    vm_compute; reflexivity.
  - do 5 eexists. split; [vm_compute; reflexivity|].
    eapply (play_turn_two_draws scripted_rng knight squire false
              [true; true; false] []).
    vm_compute; reflexivity.
Defined.

(** Knight against Squire: the round is won with the opponent's team
    exhausted. *)
Lemma play_round_win_iff_not_exhausted_witness :
  exists r g',
    play_round scripted_rng (two_team_loader [knight] [squire]) 5 "yours" "theirs" true []
    = Returns (r, g') /\
    exists st,
      round_loop scripted_rng 5
        (round_start (two_team_loader [knight] [squire]) "yours" "theirs" true [])
      = Returns st /\
      round_continues st = false /\
      r = round_result st /\ g' = round_rng st /\
      (fst (fst r) = true <-> (your_index st < length (your_team st))%nat) /\
      (fst (fst r) = true -> opponent_index st = length (opponent_team st)) /\
      (fst (fst r) = false <-> your_index st = length (your_team st)) /\
      (your_index st = length (your_team st) ->
       opponent_index st = length (opponent_team st) -> fst (fst r) = false).
Proof.
  do 2 eexists. split; [vm_compute; reflexivity|].
  eapply (play_round_win_iff_not_exhausted scripted_rng
            (two_team_loader [knight] [squire]) 5 "yours" "theirs" true []).
  vm_compute; reflexivity.
Defined.

(** C1, as stated, fails: Berserker (5 health) pays 10 health for the
    blow that fells Squire.  Both indices reach the lengths of their
    teams on this one turn, and the round is lost. *)
Lemma play_round_double_exhaustion_is_loss :
  match round_loop scripted_rng 5
          (round_start (two_team_loader [berserker] [squire]) "yours" "theirs" true [])
  with
  | Returns st =>
      your_index st = length (your_team st) /\
      opponent_index st = length (opponent_team st) /\
      battle_log st = ["Berserker hit Squire for 20.00 damage. Squire has fainted."] /\
      fst (fst (round_result st)) = false /\
      exists teams,
        play_round scripted_rng (two_team_loader [berserker] [squire]) 5
                   "yours" "theirs" true []
        = Returns ((false, battle_log st, teams), [])
  | _ => False
  end.
Proof.
  vm_compute. repeat split. eexists; reflexivity.
Qed.

Lemma play_round_fights_only_the_living_witness :
  (exists yc oc,
      [knight; squire] !! 0%nat = Some yc /\ [squire; knight] !! 0%nat = Some oc /\
      alive yc /\ alive oc /\
      exists st',
        round_body scripted_rng
          (round_start (two_team_loader [knight; squire] [squire; knight])
                       "yours" "theirs" true [])
        = Ok st')
  /\
  (exists res,
      play_round scripted_rng (two_team_loader [knight; squire] [squire; knight])
                 50 "yours" "theirs" true [] = Returns res
      \/ play_round scripted_rng (two_team_loader [knight; squire] [squire; knight])
                    50 "yours" "theirs" true [] = OutOfFuel).
Proof.
  assert (Hy : Forall alive [knight; squire]) by (repeat constructor).
  assert (Ho : Forall alive [squire; knight]) by (repeat constructor).
  pose proof (play_round_fights_only_the_living scripted_rng
                (two_team_loader [knight; squire] [squire; knight])
                "yours" "theirs" true [] Hy Ho) as [Hiter Hfuel].
  split.
  - exact (Hiter _ (reaches_start _ _ _) eq_refl).
  - exact (Hfuel 50%nat).
Defined.

Lemma play_round_empty_team_witness :
  play_round scripted_rng (two_team_loader [] [squire]) 0 "yours" "theirs" true [true]
  = Returns ((false, [], ([], [squire])), [true])
  /\
  play_round scripted_rng (two_team_loader [knight] []) 0 "yours" "theirs" false [true]
  = Returns ((true, [], ([knight], [])), [true]).
Proof.
  split.
  - apply (play_round_empty_team scripted_rng (two_team_loader [] [squire])
             0 "yours" "theirs" true [true]).
    reflexivity.
  - apply (play_round_empty_team scripted_rng (two_team_loader [knight] [])
             0 "yours" "theirs" false [true]).
    + discriminate.
    + reflexivity.
Defined.

(** C8: the match of Knight against Squire.  Knight wins the first
    round on its first blow, [play_round] returns its three values, and
    [play_match] raises at the unpacking of line 182 instead of going on
    to tally the round. *)
Theorem play_match_unpack_failure :
  (exists teams,
      play_round scripted_rng (two_team_loader [knight] [squire]) 5
                 (path_join "yours" (round_file 1)) (path_join "theirs" (round_file 1))
                 true []
      = Returns ((true, ["Knight hit Squire for 20.00 damage. Squire has fainted."],
                  teams), []))
  /\
  play_match scripted_rng (two_team_loader [knight] [squire]) 5 "yours" "theirs" [true]
  = Raises "too many values to unpack (expected 2)".
Proof.
  split; [eexists|]; vm_compute; reflexivity.
Qed.

(** * Further properties of the engine *)

(** ** Damage model *)






(** X5: for armor and magic resistance between 0 and 100 the miss chance
    lies between 0 and 10 (percent), whatever the damage. *)
Theorem calculate_miss_chance_bounds (d : Damage) (s : Stats) :
  0 <= armor s <= 100 -> 0 <= magic_resistance s <= 100 ->
  0 <= calculate_miss_chance d s <= 10.
Proof.
  intros [Ha0 Ha1] [Hr0 Hr1]. unfold calculate_miss_chance.
  destruct (py_gt (magic d) (physical d)).
  - assert (E : magic_resistance s / 10 * 10 == magic_resistance s) by field.
    split; lra.
  - assert (E : armor s / 10 * 10 == armor s) by field.
    split; lra.
Qed.

(** ** Turn *)

Section TurnEffects.

Context {RngState : Type} (rng : Q -> RngState -> bool * RngState).

(** All the ways through a turn that returns. *)
Ltac through_turn g :=
  unfold play_turn, miss_roll, turn_miss_chance, chosen_attack, special_roll,
    self_updated;
  destruct (existsb _ _); [discriminate|];
  match goal with |- context [if ?turn then _ else _] => is_var turn; destruct turn end;
  cbn [attacker defender];
  destruct (rng _ g) as [sp g1]; cbn [fst snd];
  destruct (rng _ g1) as [ms g2]; cbn [fst snd];
  destruct ms; cbn [calculate_damage_taken];
  try match goal with |- context [if py_le ?h 0 then _ else _] =>
    destruct (py_le h 0) eqn:Hko end;
  destruct (stat_updates_to_self _);
  let H := fresh in
  intros H; injection H; intros; subst;
  cbn -[Qplus Qminus Qmult Qdiv Qopp Qle Qlt format_2f].

(** X6: a turn never changes who the characters are: names and both
    attacks of the two characters are as before, whether the call
    returns or raises. *)
Theorem play_turn_keeps_identity (yc oc : BaseCharacter) (turn : bool) (g : RngState)
    (res : result string) (yc' oc' : BaseCharacter) (g' : RngState) :
  play_turn rng yc oc turn g = (res, (yc', oc', g')) ->
  (name yc' = name yc /\ basic_attack yc' = basic_attack yc
   /\ special_attack yc' = special_attack yc)
  /\ (name oc' = name oc /\ basic_attack oc' = basic_attack oc
      /\ special_attack oc' = special_attack oc).
Proof.
  unfold play_turn.
  destruct (existsb _ _); [intros [= <- <- <- <-]; auto|].
  destruct turn;
    destruct (rng _ g) as [sp g1]; destruct (rng _ g1) as [ms g2];
    destruct ms; cbn [calculate_damage_taken];
    try match goal with |- context [if py_le ?h 0 then _ else _] =>
      destruct (py_le h 0) end;
    destruct (stat_updates_to_self _);
    intros [= <- <- <- <-]; cbn; auto.
Qed.

(** X7: what a completed turn does to the attacker besides the dealt and
    kill counters: its stats become its stats plus the updates of the
    attack it used (unchanged when the attack has none), on a hit and on
    a miss alike, and its taken and mitigated counters do not move. *)
Theorem play_turn_attacker (yc oc : BaseCharacter) (turn : bool) (g : RngState)
    (descr : string) (yc' oc' : BaseCharacter) (g' : RngState) :
  play_turn rng yc oc turn g = (Ok descr, (yc', oc', g')) ->
  let att := attacker turn yc oc in
  let att' := attacker turn yc' oc' in
  effective_stats att' = self_updated att (chosen_attack rng att g) /\
  damage_taken (damage_stats att') = damage_taken (damage_stats att) /\
  damage_mitigated (damage_stats att') = damage_mitigated (damage_stats att).
Proof.
  cbv zeta. through_turn g; auto.
Qed.

(** X8: what a completed turn leaves alone in the defender: armor, magic
    resistance and special-trigger chance, and the dealt and kill
    counters. *)
Theorem play_turn_defender (yc oc : BaseCharacter) (turn : bool) (g : RngState)
    (descr : string) (yc' oc' : BaseCharacter) (g' : RngState) :
  play_turn rng yc oc turn g = (Ok descr, (yc', oc', g')) ->
  let def := defender turn yc oc in
  let def' := defender turn yc' oc' in
  armor (effective_stats def') = armor (effective_stats def) /\
  magic_resistance (effective_stats def') = magic_resistance (effective_stats def) /\
  special_trigger_chance (effective_stats def')
  = special_trigger_chance (effective_stats def) /\
  damage_dealt (damage_stats def') = damage_dealt (damage_stats def) /\
  kills (damage_stats def') = kills (damage_stats def).
Proof.
  cbv zeta. through_turn g; rewrite ?Qplus_0_r_eq; auto.
Qed.

(** X9: a miss moves no counter: the damage statistics of both
    characters are as before. *)
Theorem play_turn_miss_counters (yc oc : BaseCharacter) (turn : bool) (g : RngState)
    (descr : string) (yc' oc' : BaseCharacter) (g' : RngState) :
  play_turn rng yc oc turn g = (Ok descr, (yc', oc', g')) ->
  fst (miss_roll rng (attacker turn yc oc) (defender turn yc oc) g) = true ->
  damage_stats yc' = damage_stats yc /\ damage_stats oc' = damage_stats oc.
Proof.
  through_turn g; try congruence; auto.
Qed.


End TurnEffects.

(** ** Lists of characters *)

Lemma map_insert_same {A B : Type} (f : A -> B) (l : list A) (i : nat) (x y : A) :
  l !! i = Some x -> f y = f x -> map f (<[i := y]> l) = map f l.
Proof.
  revert i. induction l as [|a l IH]; intros [|i] Hl Hf; try discriminate.
  - injection Hl as ->. cbn. rewrite Hf. reflexivity.
  - cbn. f_equal. apply IH; assumption.
Qed.


Lemma foldr_Zplus_insert (f : BaseCharacter -> Z) (l : Team) (i : nat)
    (x y : BaseCharacter) :
  l !! i = Some x ->
  (foldr (fun c acc => f c + acc) 0 (<[i := y]> l) + f x
   = foldr (fun c acc => f c + acc) 0 l + f y)%Z.
Proof.
  revert i. induction l as [|a l IH]; intros [|i] Hl; try discriminate.
  - injection Hl as ->. cbn. lia.
  - specialize (IH i Hl).
    change (<[S i := y]> (a :: l)) with (a :: <[i := y]> l).
    cbn [foldr]. lia.
Qed.

(** ** Facts about one turn that the round properties rest on *)

Section TurnFacts.

Context {RngState : Type} (rng : Q -> RngState -> bool * RngState).

Ltac every_turn g :=
  unfold play_turn;
  destruct (existsb _ _); [discriminate|];
  match goal with |- context [if ?turn then _ else _] => is_var turn; destruct turn end;
  destruct (rng _ g) as [sp g1];
  destruct (rng _ g1) as [ms g2];
  destruct ms; cbn [calculate_damage_taken];
  try match goal with |- context [if py_le ?h 0 then _ else _] =>
    destruct (py_le h 0) eqn:Hko end;
  destruct (stat_updates_to_self _);
  let H := fresh in
  intros H; injection H; intros; subst;
  cbn -[Qplus Qminus Qmult Qdiv Qopp Qle Qlt format_2f].

Lemma play_turn_same_identity (yc oc : BaseCharacter) (turn : bool) (g : RngState)
    (descr : string) (yc' oc' : BaseCharacter) (g' : RngState) :
  play_turn rng yc oc turn g = (Ok descr, (yc', oc', g')) ->
  (name yc' = name yc /\ basic_attack yc' = basic_attack yc
   /\ special_attack yc' = special_attack yc)
  /\ (name oc' = name oc /\ basic_attack oc' = basic_attack oc
      /\ special_attack oc' = special_attack oc).
Proof. every_turn g; auto. Qed.


(** A kill is counted for one side only when the other side's character
    is left without health. *)
Lemma play_turn_kills (yc oc : BaseCharacter) (turn : bool) (g : RngState)
    (descr : string) (yc' oc' : BaseCharacter) (g' : RngState) :
  play_turn rng yc oc turn g = (Ok descr, (yc', oc', g')) ->
  (kills (damage_stats yc') = kills (damage_stats yc)
   \/ kills (damage_stats yc') = (kills (damage_stats yc) + 1)%Z
      /\ py_le (current_hp (effective_stats oc')) 0 = true) /\
  (kills (damage_stats oc') = kills (damage_stats oc)
   \/ kills (damage_stats oc') = (kills (damage_stats oc) + 1)%Z
      /\ py_le (current_hp (effective_stats yc')) 0 = true).
Proof. every_turn g; auto. Qed.

(** A miss by an attacker whose attack has no updates changes nothing
    but the engine. *)
Lemma play_turn_plain_miss (yc oc : BaseCharacter) (turn : bool) (g : RngState) :
  alive yc -> alive oc ->
  (forall p g0, fst (rng p g0) = true) ->
  stat_updates_to_self (special_attack yc) = None ->
  stat_updates_to_self (special_attack oc) = None ->
  exists descr g', play_turn rng yc oc turn g = (Ok descr, (yc, oc, g')).
Proof.
  intros Hy Ho Hrng Uy Uo. unfold play_turn.
  rewrite (proj2 (dead_check_false yc oc) (conj Hy Ho)).
  pose proof (Hrng (special_trigger_chance
                      (effective_stats (if turn then yc else oc))) g) as H1.
  destruct (rng _ g) as [sp g1]. cbn [fst] in H1. subst sp.
  match goal with |- context [rng ?p g1] => pose proof (Hrng p g1) as H2 end.
  destruct (rng _ g1) as [ms g2]. cbn [fst] in H2. subst ms.
  destruct turn; rewrite ?Uy, ?Uo; eauto.
Qed.

(** On an engine that records its draws, a completed turn adds two. *)
Lemma play_turn_logs_two (yc oc : BaseCharacter) (turn : bool) (g : RngState)
    (log : list Q) (descr : string) (yc' oc' : BaseCharacter) (g' : RngState)
    (log' : list Q) :
  play_turn (logging_rng rng) yc oc turn (g, log) = (Ok descr, (yc', oc', (g', log'))) ->
  length log' = S (S (length log)).
Proof.
  intros H. apply play_turn_engine in H.
  unfold miss_roll, special_roll in H.
  rewrite logging_rng_snd in H. rewrite logging_rng_snd in H.
  injection H as _ ->. rewrite !length_app. cbn. lia.
Qed.

End TurnFacts.

(** ** Round *)

Section RoundEffects.

Context {RngState : Type} (rng : Q -> RngState -> bool * RngState).
Context (read_data : string -> Team).

Implicit Types st : RoundState RngState.

(** Induction over the iterations of the round loop. *)
Lemma round_reaches_invariant (P : RoundState RngState -> Prop) st0 :
  P st0 ->
  (forall st yc oc descr yc' oc' g',
      P st -> round_continues st = true ->
      your_team st !! your_index st = Some yc ->
      opponent_team st !! opponent_index st = Some oc ->
      play_turn rng yc oc (is_your_turn st) (round_rng st) = (Ok descr, (yc', oc', g')) ->
      P {| your_team := <[your_index st := yc']> (your_team st);
           opponent_team := <[opponent_index st := oc']> (opponent_team st);
           your_index := if py_le (current_hp (effective_stats yc')) 0
                         then S (your_index st) else your_index st;
           opponent_index := if py_le (current_hp (effective_stats oc')) 0
                             then S (opponent_index st) else opponent_index st;
           is_your_turn := negb (is_your_turn st);
           battle_log := battle_log st ++ [descr];
           round_rng := g' |}) ->
  forall st, round_reaches rng st0 st -> P st.
Proof.
  intros H0 Hstep st Hr. induction Hr as [|st st' _ IH Hs]; [exact H0|].
  destruct Hs as [st st' Hc Hb]. apply round_body_Ok in Hb.
  destruct Hb as (yc & oc & descr & yc' & oc' & g' & Ey & Eo & Et & ->).
  eapply Hstep; eassumption.
Qed.

(** What [play_round] returns is read off a state in which the loop
    was left. *)
Lemma play_round_Returns (fuel : nat) (ya oa : string) (first : bool) (g : RngState)
    (w : bool) (log : list string) (yt ot : Team) (g' : RngState) :
  play_round rng read_data fuel ya oa first g = Returns ((w, log, (yt, ot)), g') ->
  exists st,
    round_reaches rng (round_start read_data ya oa first g) st /\
    round_continues st = false /\
    w = (your_index st <? length (your_team st))%nat /\
    log = battle_log st /\ yt = your_team st /\ ot = opponent_team st /\
    g' = round_rng st.
Proof.
  unfold play_round.
  destruct (round_loop rng fuel _) as [st| |] eqn:Hloop; try discriminate.
  unfold round_result. intros [= <- <- <- <- <-]. exists st.
  destruct (round_loop_Returns rng fuel _ _ _ (reaches_start _ _ _) Hloop) as [Hr Hc].
  repeat split; assumption.
Qed.

(** At loop exit one of the two indices has reached the end. *)
Lemma round_exit_indices st0 st :
  in_bounds st0 -> round_reaches rng st0 st -> round_continues st = false ->
  ((your_index st <? length (your_team st))%nat = true ->
   (your_index st < length (your_team st))%nat
   /\ opponent_index st = length (opponent_team st)) /\
  ((your_index st <? length (your_team st))%nat = false ->
   your_index st = length (your_team st)).
Proof.
  intros H0 Hr Hc.
  destruct (round_reaches_in_bounds rng _ _ H0 Hr) as [By Bo].
  unfold round_continues in Hc. rewrite andb_false_iff, !Nat.ltb_ge in Hc.
  split; intros H; [apply Nat.ltb_lt in H | apply Nat.ltb_ge in H]; lia.
Qed.

(** X11: a round keeps the rosters: each returned team has the length of
    the loaded team and, position by position, the names and the two
    attacks of the loaded characters. *)
Theorem play_round_keeps_rosters (fuel : nat) (ya oa : string) (first : bool)
    (g : RngState) (w : bool) (log : list string) (yt ot : Team) (g' : RngState) :
  play_round rng read_data fuel ya oa first g = Returns ((w, log, (yt, ot)), g') ->
  (length yt = length (read_data ya) /\
   map name yt = map name (read_data ya) /\
   map basic_attack yt = map basic_attack (read_data ya) /\
   map special_attack yt = map special_attack (read_data ya)) /\
  (length ot = length (read_data oa) /\
   map name ot = map name (read_data oa) /\
   map basic_attack ot = map basic_attack (read_data oa) /\
   map special_attack ot = map special_attack (read_data oa)).
Proof.
  intros Hrun. apply play_round_Returns in Hrun.
  destruct Hrun as (st & Hr & _ & _ & _ & -> & -> & _).
  revert st Hr. apply round_reaches_invariant.
  - cbn. auto 10.
  - intros st yc oc descr yc' oc' g1 IH _ Ey Eo Et.
    cbn [your_team opponent_team].
    destruct (play_turn_same_identity rng _ _ _ _ _ _ _ _ Et)
      as [(Ny & By & Sy) (No & Bo & So)].
    rewrite !length_insert.
    rewrite !(map_insert_same _ _ _ yc yc') by assumption.
    rewrite !(map_insert_same _ _ _ oc oc') by assumption.
    exact IH.
Qed.

(** X12: the side that loses a round has no character with health
    left: on a loss every character of your returned team has health at
    or below zero, on a win every character of the opponent's.  When the
    loaded teams were alive, the winning team still has a character
    with health left. *)
Theorem play_round_loser_defeated (fuel : nat) (ya oa : string) (first : bool)
    (g : RngState) (w : bool) (log : list string) (yt ot : Team) (g' : RngState) :
  play_round rng read_data fuel ya oa first g = Returns ((w, log, (yt, ot)), g') ->
  (w = false -> Forall defeated yt) /\
  (w = true -> Forall defeated ot) /\
  (Forall alive (read_data ya) -> Forall alive (read_data oa) ->
   w = true -> Exists alive yt).
Proof.
  intros Hrun. apply play_round_Returns in Hrun.
  destruct Hrun as (st & Hr & Hc & -> & _ & -> & -> & _).
  destruct (round_exit_indices _ _ (round_start_in_bounds read_data ya oa first g) Hr Hc)
    as [Hwin Hloss].
  assert (Hbehind :
            (forall i c, (i < your_index st)%nat -> your_team st !! i = Some c -> defeated c)
            /\ (forall i c, (i < opponent_index st)%nat ->
                            opponent_team st !! i = Some c -> defeated c)).
  { clear Hc Hwin Hloss. revert st Hr. apply round_reaches_invariant.
    - cbn. split; intros; lia.
    - intros st yc oc descr yc' oc' g1 [IHy IHo] _ Ey Eo Et.
      cbn [your_team opponent_team your_index opponent_index].
      split; intros i c Hi; rewrite list_lookup_insert.
      + destruct (decide (your_index st = i /\ _)) as [[<- _]|Hn].
        * intros [= <-].
          destruct (py_le (current_hp (effective_stats yc')) 0) eqn:E; [|lia].
          apply py_le_true in E. exact E.
        * destruct (decide (your_index st = i)) as [<-|Hne].
          -- intros Hl. apply lookup_lt_Some in Hl. tauto.
          -- apply IHy. destruct (py_le _ 0); lia.
      + destruct (decide (opponent_index st = i /\ _)) as [[<- _]|Hn].
        * intros [= <-].
          destruct (py_le (current_hp (effective_stats oc')) 0) eqn:E; [|lia].
          apply py_le_true in E. exact E.
        * destruct (decide (opponent_index st = i)) as [<-|Hne].
          -- intros Hl. apply lookup_lt_Some in Hl. tauto.
          -- apply IHo. destruct (py_le _ 0); lia. }
  destruct Hbehind as [Hy Ho].
  split; [|split].
  - intros Hw. apply Hloss in Hw. apply Forall_lookup. intros i c Hl.
    apply (Hy i c); [|exact Hl]. apply lookup_lt_Some in Hl. lia.
  - intros Hw. apply Hwin in Hw. apply Forall_lookup. intros i c Hl.
    apply (Ho i c); [|exact Hl]. apply lookup_lt_Some in Hl. lia.
  - intros Ay Ao Hw. apply Hwin in Hw. destruct Hw as [Hlt _].
    pose proof (round_reaches_fighters_alive rng _ _
                  (round_start_fighters_alive read_data ya oa first g Ay Ao) Hr)
      as [Hfy _].
    destruct (lookup_lt_is_Some_2 _ _ Hlt) as [c Ec].
    apply Exists_exists. exists c. split.
    + eapply list_elem_of_lookup_2. exact Ec.
    + apply (Hfy (your_index st)); [lia | exact Ec].
Qed.

(** Turns played and indices, at every loop head. *)
Lemma round_turn_count (first : bool) st0 st :
  battle_log st0 = [] -> your_index st0 = 0%nat -> opponent_index st0 = 0%nat ->
  is_your_turn st0 = first ->
  round_reaches rng st0 st ->
  is_your_turn st = xorb first (Nat.odd (length (battle_log st))) /\
  (your_index st <= length (battle_log st))%nat /\
  (opponent_index st <= length (battle_log st))%nat.
Proof.
  intros Hl Hy Ho Hf. revert st. apply round_reaches_invariant.
  - rewrite Hl, Hy, Ho, Hf. cbn. destruct first; auto.
  - intros st yc oc descr yc' oc' g1 (IHt & IHy & IHo) _ _ _ _.
    cbn [is_your_turn battle_log your_index opponent_index].
    rewrite length_app. cbn [length]. rewrite Nat.add_1_r, Nat.odd_succ.
    rewrite <- Nat.negb_odd, IHt.
    repeat split.
    + destruct first, (Nat.odd _); reflexivity.
    + destruct (py_le _ 0); lia.
    + destruct (py_le (current_hp (effective_stats oc')) 0); lia.
Qed.

(** X13: the characters behind the one that fights are not touched: at
    every iteration, each team agrees with the loaded team at all
    positions after its current index. *)
Theorem round_untouched_ahead (ya oa : string) (first : bool) (g : RngState) st :
  round_reaches rng (round_start read_data ya oa first g) st ->
  (forall i, (your_index st < i)%nat -> your_team st !! i = read_data ya !! i) /\
  (forall i, (opponent_index st < i)%nat ->
             opponent_team st !! i = read_data oa !! i).
Proof.
  revert st. apply round_reaches_invariant.
  - cbn. auto.
  - intros st yc oc descr yc' oc' g1 [IHy IHo] _ _ _ _.
    cbn [your_team opponent_team your_index opponent_index].
    split; intros i Hi; rewrite list_lookup_insert_ne.
    + apply IHy. destruct (py_le _ 0); lia.
    + destruct (py_le _ 0); lia.
    + apply IHo. destruct (py_le _ 0); lia.
    + destruct (py_le _ 0); lia.
Qed.

(** X14: turns alternate strictly, whatever happens in them: at every
    iteration the side to move is the side that moved first when an
    even number of turns has been narrated, and the other side when an
    odd number has. *)
Theorem round_turns_alternate (ya oa : string) (first : bool) (g : RngState) st :
  round_reaches rng (round_start read_data ya oa first g) st ->
  is_your_turn st = xorb first (Nat.odd (length (battle_log st))).
Proof.
  intros Hr.
  apply (round_turn_count first (round_start read_data ya oa first g) st);
    try reflexivity; exact Hr.
Qed.

(** X15: a round is not won in fewer turns than the beaten team has
    characters: the log of a won round has at least as many lines as the
    opponent's team has characters, the log of a lost round at least as
    many as yours. *)
Theorem play_round_min_turns (fuel : nat) (ya oa : string) (first : bool)
    (g : RngState) (w : bool) (log : list string) (yt ot : Team) (g' : RngState) :
  play_round rng read_data fuel ya oa first g = Returns ((w, log, (yt, ot)), g') ->
  (w = true -> (length ot <= length log)%nat) /\
  (w = false -> (length yt <= length log)%nat).
Proof.
  intros Hrun. apply play_round_Returns in Hrun.
  destruct Hrun as (st & Hr & Hc & -> & -> & -> & -> & _).
  destruct (round_exit_indices _ _ (round_start_in_bounds read_data ya oa first g) Hr Hc)
    as [Hwin Hloss].
  destruct (round_turn_count first (round_start read_data ya oa first g) st
              eq_refl eq_refl eq_refl eq_refl Hr)
    as (_ & Hy & Ho).
  split; intros Hw; [apply Hwin in Hw | apply Hloss in Hw]; lia.
Qed.

(** X16: the loop has no turn limit: when the engine answers every
    draw with [True] (every attack is special and misses) and the special
    attacks of the two leading characters carry no updates, a round
    between two teams whose leading characters are alive does not
    return, however many iterations it is given. *)
Theorem play_round_no_turn_limit (ya oa : string) (first : bool) (g : RngState)
    (yc oc : BaseCharacter) (ys os : Team) :
  (forall p g0, fst (rng p g0) = true) ->
  read_data ya = yc :: ys -> read_data oa = oc :: os ->
  alive yc -> alive oc ->
  stat_updates_to_self (special_attack yc) = None ->
  stat_updates_to_self (special_attack oc) = None ->
  forall fuel, play_round rng read_data fuel ya oa first g = OutOfFuel.
Proof.
  intros Hrng Ey Eo Ay Ao Uy Uo fuel. unfold play_round, round_start.
  rewrite Ey, Eo.
  assert (Hloop : forall turn log g0,
             round_loop rng fuel
               {| your_team := yc :: ys; opponent_team := oc :: os;
                  your_index := 0; opponent_index := 0; is_your_turn := turn;
                  battle_log := log; round_rng := g0 |} = OutOfFuel).
  { induction fuel as [|fuel IH]; intros turn log g0; [reflexivity|].
    cbn [round_loop]. unfold round_continues. cbn [your_index opponent_index
      your_team opponent_team length Nat.ltb Nat.leb andb].
    unfold round_body. cbn [your_index opponent_index your_team opponent_team
      is_your_turn round_rng battle_log].
    change ((yc :: ys) !! 0%nat) with (Some yc).
    change ((oc :: os) !! 0%nat) with (Some oc). cbv iota beta.
    destruct (play_turn_plain_miss rng yc oc turn g0 Ay Ao Hrng Uy Uo)
      as (descr & g1 & ->).
    apply py_le_false in Ay. apply py_le_false in Ao. rewrite Ay, Ao.
    change (<[0%nat := yc]> (yc :: ys)) with (yc :: ys).
    change (<[0%nat := oc]> (oc :: os)) with (oc :: os).
    apply IH. }
  rewrite Hloop. reflexivity.
Qed.


(** X18: over a round, a team counts no kill it has no fallen opponent
    for: the summed kill counters of a team never decrease and grow by
    at most the number of characters of the other team. *)
Theorem play_round_kills_bound (fuel : nat) (ya oa : string) (first : bool)
    (g : RngState) (w : bool) (log : list string) (yt ot : Team) (g' : RngState) :
  play_round rng read_data fuel ya oa first g = Returns ((w, log, (yt, ot)), g') ->
  (0 <= total_kills yt - total_kills (read_data ya) <= Z.of_nat (length ot))%Z /\
  (0 <= total_kills ot - total_kills (read_data oa) <= Z.of_nat (length yt))%Z.
Proof.
  intros Hrun. apply play_round_Returns in Hrun.
  destruct Hrun as (st & Hr & _ & _ & _ & -> & -> & _).
  pose proof (round_reaches_in_bounds rng _ _
                (round_start_in_bounds read_data ya oa first g) Hr) as [By Bo].
  assert (Hinv :
    (0 <= total_kills (your_team st) - total_kills (read_data ya)
     <= Z.of_nat (opponent_index st))%Z /\
    (0 <= total_kills (opponent_team st) - total_kills (read_data oa)
     <= Z.of_nat (your_index st))%Z).
  { clear By Bo. revert st Hr. apply round_reaches_invariant.
    - cbn [round_start your_team opponent_team your_index opponent_index]. lia.
    - intros st yc oc descr yc' oc' g1 [IH1 IH2] _ Ey Eo Et.
      cbn [your_team opponent_team your_index opponent_index].
      destruct (play_turn_kills rng _ _ _ _ _ _ _ _ Et) as [K1 K2].
      pose proof (foldr_Zplus_insert (fun c => kills (damage_stats c))
                    _ _ yc yc' Ey) as Ky.
      pose proof (foldr_Zplus_insert (fun c => kills (damage_stats c))
                    _ _ oc oc' Eo) as Ko.
      unfold total_kills in *. cbv beta in Ky, Ko.
      destruct K1 as [K1|[K1 ->]], K2 as [K2|[K2 ->]];
        repeat match goal with |- context [py_le ?h 0] => destruct (py_le h 0) end;
        lia. }
  lia.
Qed.

End RoundEffects.

(** ** Draws of a round *)

(** X19: a round draws from the engine exactly twice per narrated turn:
    run on an engine that records its draws, starting from an empty
    record, a round that returns has recorded twice as many draws as its
    log has lines. *)
Theorem play_round_two_draws_per_turn {RngState : Type}
    (rng : Q -> RngState -> bool * RngState) (read_data : string -> Team)
    (fuel : nat) (ya oa : string) (first : bool) (g : RngState)
    (w : bool) (log : list string) (yt ot : Team) (g' : RngState) (draws : list Q) :
  play_round (logging_rng rng) read_data fuel ya oa first (g, [])
  = Returns ((w, log, (yt, ot)), (g', draws)) ->
  length draws = (2 * length log)%nat.
Proof.
  intros Hrun. apply play_round_Returns in Hrun.
  destruct Hrun as (st & Hr & _ & _ & -> & _ & _ & Hg).
  change draws with (snd (g', draws)). rewrite Hg. clear Hg.
  revert st Hr. apply round_reaches_invariant.
  - reflexivity.
  - intros st yc oc descr yc' oc' [g1 log1] IH _ _ _ Et.
    cbn [round_rng battle_log snd].
    destruct (round_rng st) as [g0 log0]. cbn [snd] in IH.
    apply play_turn_logs_two in Et.
    rewrite Et, IH, length_app. cbn [length]. lia.
Qed.

(** ** Match *)

Section MatchEffects.

Context {RngState : Type} (rng : Q -> RngState -> bool * RngState).
Context (read_data : string -> Team).

(** X20: [play_match] ends in its first round, whatever the teams: it
    draws who moves first, plays round 1, and then raises, with the
    unpacking error when the round returned and with the round's own
    exception otherwise; it runs for ever when the round does.  No
    second round is ever loaded. *)
Theorem play_match_ends_in_round_one (fuel : nat) (ya oa : string) (g : RngState) :
  match play_round rng read_data fuel (path_join ya (round_file 1))
                   (path_join oa (round_file 1))
                   (fst (rng 50 g)) (snd (rng 50 g)) with
  | Returns _ =>
      play_match rng read_data fuel ya oa g
      = Raises "too many values to unpack (expected 2)"
  | Raises msg => play_match rng read_data fuel ya oa g = Raises msg
  | OutOfFuel => play_match rng read_data fuel ya oa g = OutOfFuel
  end.
Proof.
  unfold play_match, match_start. cbn [N_ROUNDS seq match_loop].
  destruct (rng 50 g) as [first g1]. cbn [fst snd is_your_turn_first match_rng].
  pose proof (run_round_outcome rng read_data fuel ya oa 1 first g1) as H.
  destruct (play_round rng read_data fuel _ _ first g1) as [res|msg|];
    rewrite H; reflexivity.
Qed.

(** X21: the series logic of the match loop, run on given round
    outcomes: the loop returns after the round in which a side has its
    third win and not before, which is round 3, 4 or 5; the match is won
    exactly when that side is yours; and the side that moves first has
    been swapped once per round played. *)
Theorem match_series_on_outcomes (w1 w2 w3 w4 w5 : bool) (g : RngState) :
  let outcomes := [w1; w2; w3; w4; w5] in
  exists ms,
    match_loop (scripted_runner outcomes) (seq 1 N_ROUNDS) (match_start rng g)
    = Returns ms /\
    let played := (your_wins ms + opponent_wins ms)%nat in
    (N_WINS <= played <= N_ROUNDS)%nat /\
    your_wins ms = wins_in (take played outcomes) /\
    opponent_wins ms = losses_in (take played outcomes) /\
    (forall n, (n < played)%nat ->
               (wins_in (take n outcomes) < N_WINS)%nat
               /\ (losses_in (take n outcomes) < N_WINS)%nat) /\
    (fst (match_result ms) = true <-> your_wins ms = N_WINS) /\
    (fst (match_result ms) = false <-> opponent_wins ms = N_WINS) /\
    is_your_turn_first ms = xorb (fst (rng 50 g)) (Nat.odd played).
Proof.
  unfold match_start. destruct (rng 50 g) as [first g1]. cbn [fst].
  destruct w1, w2, w3, w4, w5; eexists; (split; [vm_compute; reflexivity|]);
    cbn [your_wins opponent_wins Nat.add is_your_turn_first];
    (split; [vm_compute; lia|]);
    (split; [reflexivity|]); (split; [reflexivity|]);
    (split; [intros n Hn; do 5 (destruct n as [|n]; [vm_compute; lia|]); lia|]);
    (split; [vm_compute; split; intros; (reflexivity || discriminate)|]);
    (split; [vm_compute; split; intros; (reflexivity || discriminate)|]);
    destruct first; reflexivity.
Qed.

End MatchEffects.

(** ** The bot's view of a round *)

Lemma imap_indices {A B : Type} (f : A -> B) (l : list A) (k : nat) :
  map fst (imap (fun i c => ((k + i)%nat, f c)) l) = seq k (length l)
  /\ map snd (imap (fun i c => ((k + i)%nat, f c)) l) = map f l.
Proof.
  revert k. induction l as [|a l IH]; intros k; [split; reflexivity|].
  cbn [imap map length seq fst snd]. rewrite Nat.add_0_r.
  destruct (IH (S k)) as [IH1 IH2].
  assert (E : imap ((fun i c => ((k + i)%nat, f c)) ∘ S) l
              = imap (fun i c => ((S k + i)%nat, f c)) l).
  { apply imap_ext. intros i x _. cbn. f_equal. lia. }
  rewrite E, IH1, IH2. split; reflexivity.
Qed.

(** X22: fed with what a round returned, [process_previous_round_stats]
    records one pair per loaded character and team, in team order: the
    indices are 0, 1, ... up to the size of the loaded team, and the
    numbers are the dealt counters of the returned characters; whatever
    the bot had recorded before is replaced. *)
Theorem process_previous_round_stats_after_round {RngState : Type}
    (rng : Q -> RngState -> bool * RngState) (read_data : string -> Team)
    (fuel : nat) (ya oa : string) (first : bool) (g : RngState)
    (w : bool) (log : list string) (yt ot : Team) (g' : RngState) (self : YourBot) :
  play_round rng read_data fuel ya oa first g = Returns ((w, log, (yt, ot)), g') ->
  let bot := process_previous_round_stats self w yt ot in
  map fst (team_damage_dealers bot) = seq 0 (length (read_data ya)) /\
  map snd (team_damage_dealers bot) = map (fun c => damage_dealt (damage_stats c)) yt /\
  map fst (opponent_damage_dealers bot) = seq 0 (length (read_data oa)) /\
  map snd (opponent_damage_dealers bot)
  = map (fun c => damage_dealt (damage_stats c)) ot.
Proof.
  intros Hrun bot. subst bot. unfold process_previous_round_stats.
  cbn [team_damage_dealers opponent_damage_dealers].
  apply play_round_Returns in Hrun.
  destruct Hrun as (st & Hr & _ & _ & _ & -> & -> & _).
  assert (Hlen : length (your_team st) = length (read_data ya)
                 /\ length (opponent_team st) = length (read_data oa)).
  { revert st Hr. apply round_reaches_invariant.
    - split; reflexivity.
    - intros st yc oc descr yc' oc' g1 IH _ _ _ _.
      cbn [your_team opponent_team]. rewrite !length_insert. exact IH. }
  destruct Hlen as [<- <-].
  destruct (imap_indices (fun c => damage_dealt (damage_stats c)) (your_team st) 0)
    as [Y1 Y2].
  destruct (imap_indices (fun c => damage_dealt (damage_stats c)) (opponent_team st) 0)
    as [O1 O2].
  cbn [Nat.add] in Y1, Y2, O1, O2.
  repeat split; assumption.
Qed.

(** ** The further properties on the sample teams *)




Lemma calculate_miss_chance_bounds_witness :
  0 <= calculate_miss_chance {| physical := 0; magic := 5 |} (effective_stats knight)
  <= 10.
Proof.
  apply (calculate_miss_chance_bounds {| physical := 0; magic := 5 |}
           (effective_stats knight)); cbn; split; discriminate.
Defined.

(** Berserker's blow: the attack carries updates, hits and fells. *)
Lemma play_turn_keeps_identity_witness :
  exists res yc' oc' g',
    play_turn scripted_rng berserker squire true [] = (res, (yc', oc', g')) /\
    (name yc' = name berserker /\ basic_attack yc' = basic_attack berserker
     /\ special_attack yc' = special_attack berserker)
    /\ (name oc' = name squire /\ basic_attack oc' = basic_attack squire
        /\ special_attack oc' = special_attack squire).
Proof.
  do 4 eexists. split; [vm_compute; reflexivity|].
  eapply (play_turn_keeps_identity scripted_rng berserker squire true []).
  vm_compute; reflexivity.
Defined.

Lemma play_turn_attacker_witness :
  exists descr yc' oc' g',
    play_turn scripted_rng berserker squire true [] = (Ok descr, (yc', oc', g')) /\
    effective_stats yc'
    = self_updated berserker (chosen_attack scripted_rng berserker []) /\
    damage_taken (damage_stats yc') = damage_taken (damage_stats berserker) /\
    damage_mitigated (damage_stats yc') = damage_mitigated (damage_stats berserker).
Proof.
  do 4 eexists. split; [vm_compute; reflexivity|].
  eapply (play_turn_attacker scripted_rng berserker squire true []).
  vm_compute; reflexivity.
Defined.

Lemma play_turn_defender_witness :
  exists descr yc' oc' g',
    play_turn scripted_rng knight squire false [true] = (Ok descr, (yc', oc', g')) /\
    armor (effective_stats yc') = armor (effective_stats knight) /\
    magic_resistance (effective_stats yc') = magic_resistance (effective_stats knight) /\
    special_trigger_chance (effective_stats yc')
    = special_trigger_chance (effective_stats knight) /\
    damage_dealt (damage_stats yc') = damage_dealt (damage_stats knight) /\
    kills (damage_stats yc') = kills (damage_stats knight).
Proof.
  do 4 eexists. split; [vm_compute; reflexivity|].
  eapply (play_turn_defender scripted_rng knight squire false [true]).
  vm_compute; reflexivity.
Defined.

Lemma play_turn_miss_counters_witness :
  exists descr yc' oc' g',
    play_turn scripted_rng berserker squire true [false; true]
    = (Ok descr, (yc', oc', g')) /\
    damage_stats yc' = damage_stats berserker /\ damage_stats oc' = damage_stats squire.
Proof.
  do 4 eexists. split; [vm_compute; reflexivity|].
  eapply (play_turn_miss_counters scripted_rng berserker squire true [false; true]).
  - vm_compute; reflexivity.
  - reflexivity.
Defined.


(** Knight and Squire against Squire and Knight, you first, every draw
    answered [False]: a round of six turns that you lose. *)
Lemma play_round_keeps_rosters_witness :
  exists w log yt ot g',
    play_round scripted_rng (two_team_loader [knight; squire] [squire; knight]) 20
               "yours" "theirs" true [] = Returns ((w, log, (yt, ot)), g') /\
    (length yt = 2%nat /\
     map name yt = ["Knight"; "Squire"] /\
     map basic_attack yt = map basic_attack [knight; squire] /\
     map special_attack yt = map special_attack [knight; squire]) /\
    (length ot = 2%nat /\
     map name ot = ["Squire"; "Knight"] /\
     map basic_attack ot = map basic_attack [squire; knight] /\
     map special_attack ot = map special_attack [squire; knight]).
Proof.
  do 5 eexists. split; [vm_compute; reflexivity|].
  eapply (play_round_keeps_rosters scripted_rng
            (two_team_loader [knight; squire] [squire; knight]) 20
            "yours" "theirs" true []).
  vm_compute; reflexivity.
Defined.

(** Against two Squires the round is won in three turns. *)
Lemma play_round_loser_defeated_witness :
  exists log yt ot g',
    play_round scripted_rng (two_team_loader [knight; squire] [squire; squire]) 20
               "yours" "theirs" true [] = Returns ((true, log, (yt, ot)), g') /\
    Forall defeated ot /\ Exists alive yt.
Proof.
  do 4 eexists. split; [vm_compute; reflexivity|].
  edestruct (play_round_loser_defeated scripted_rng
               (two_team_loader [knight; squire] [squire; squire]) 20
               "yours" "theirs" true []) as (_ & Hwin & Hsurv);
    [vm_compute; reflexivity|].
  split.
  - exact (Hwin eq_refl).
  - apply Hsurv; [vm_compute; repeat constructor
                 | vm_compute; repeat constructor | reflexivity].
Defined.

Lemma play_round_min_turns_witness :
  exists log yt ot g',
    play_round scripted_rng (two_team_loader [knight; squire] [squire; squire]) 20
               "yours" "theirs" true [] = Returns ((true, log, (yt, ot)), g') /\
    (length ot <= length log)%nat.
Proof.
  do 4 eexists. split; [vm_compute; reflexivity|].
  edestruct (play_round_min_turns scripted_rng
               (two_team_loader [knight; squire] [squire; squire]) 20
               "yours" "theirs" true []) as (Hwin & _);
    [vm_compute; reflexivity|].
  exact (Hwin eq_refl).
Defined.


Lemma play_round_kills_bound_witness :
  exists w log yt ot g',
    play_round scripted_rng (two_team_loader [knight; squire] [squire; knight]) 20
               "yours" "theirs" true [] = Returns ((w, log, (yt, ot)), g') /\
    (0 <= total_kills yt - total_kills [knight; squire] <= Z.of_nat (length ot))%Z /\
    (0 <= total_kills ot - total_kills [squire; knight] <= Z.of_nat (length yt))%Z.
Proof.
  do 5 eexists. split; [vm_compute; reflexivity|].
  eapply (play_round_kills_bound scripted_rng
            (two_team_loader [knight; squire] [squire; knight]) 20
            "yours" "theirs" true []).
  vm_compute; reflexivity.
Defined.

(** The state after the first turn of that round. *)
Lemma round_untouched_ahead_witness :
  exists st,
    round_reaches scripted_rng
      (round_start (two_team_loader [knight; squire] [squire; knight])
                   "yours" "theirs" true []) st /\
    length (battle_log st) = 1%nat /\
    (forall i, (your_index st < i)%nat -> your_team st !! i = [knight; squire] !! i) /\
    (forall i, (opponent_index st < i)%nat ->
               opponent_team st !! i = [squire; knight] !! i).
Proof.
  assert (Hr : exists st,
             round_reaches scripted_rng
               (round_start (two_team_loader [knight; squire] [squire; knight])
                            "yours" "theirs" true []) st
             /\ length (battle_log st) = 1%nat).
  { eexists. split.
    - eapply reaches_next; [apply reaches_start|].
      constructor; [reflexivity | vm_compute; reflexivity].
    - reflexivity. }
  destruct Hr as (st & Hr & Hl). exists st.
  split; [exact Hr|]. split; [exact Hl|].
  exact (round_untouched_ahead scripted_rng
           (two_team_loader [knight; squire] [squire; knight])
           "yours" "theirs" true [] st Hr).
Defined.

Lemma round_turns_alternate_witness :
  exists st,
    round_reaches scripted_rng
      (round_start (two_team_loader [knight; squire] [squire; knight])
                   "yours" "theirs" true []) st /\
    length (battle_log st) = 1%nat /\
    is_your_turn st = xorb true (Nat.odd (length (battle_log st))).
Proof.
  assert (Hr : exists st,
             round_reaches scripted_rng
               (round_start (two_team_loader [knight; squire] [squire; knight])
                            "yours" "theirs" true []) st
             /\ length (battle_log st) = 1%nat).
  { eexists. split.
    - eapply reaches_next; [apply reaches_start|].
      constructor; [reflexivity | vm_compute; reflexivity].
    - reflexivity. }
  destruct Hr as (st & Hr & Hl). exists st.
  split; [exact Hr|]. split; [exact Hl|].
  exact (round_turns_alternate scripted_rng
           (two_team_loader [knight; squire] [squire; knight])
           "yours" "theirs" true [] st Hr).
Defined.

(** Every attack misses: Knight against Squire goes on for ever. *)
Lemma play_round_no_turn_limit_witness :
  play_round (constant_rng true) (two_team_loader [knight] [squire]) 1000
             "yours" "theirs" true tt = OutOfFuel.
Proof.
  apply (play_round_no_turn_limit (constant_rng true)
           (two_team_loader [knight] [squire]) "yours" "theirs" true tt
           knight squire [] []); reflexivity.
Defined.

Lemma play_round_two_draws_per_turn_witness :
  exists w log yt ot g' draws,
    play_round (logging_rng scripted_rng)
               (two_team_loader [knight; squire] [squire; knight]) 20
               "yours" "theirs" true ([false; true], [])
    = Returns ((w, log, (yt, ot)), (g', draws)) /\
    length draws = (2 * length log)%nat.
Proof.
  do 6 eexists. split; [vm_compute; reflexivity|].
  eapply (play_round_two_draws_per_turn scripted_rng
            (two_team_loader [knight; squire] [squire; knight]) 20
            "yours" "theirs" true [false; true]).
  vm_compute; reflexivity.
Defined.

Lemma process_previous_round_stats_after_round_witness :
  exists w log yt ot g',
    play_round scripted_rng (two_team_loader [knight; squire] [squire; knight]) 20
               "yours" "theirs" true [] = Returns ((w, log, (yt, ot)), g') /\
    map fst (team_damage_dealers (process_previous_round_stats YourBot_init w yt ot))
    = [0; 1]%nat /\
    map snd (team_damage_dealers (process_previous_round_stats YourBot_init w yt ot))
    = map (fun c => damage_dealt (damage_stats c)) yt /\
    map fst (opponent_damage_dealers (process_previous_round_stats YourBot_init w yt ot))
    = [0; 1]%nat /\
    map snd (opponent_damage_dealers (process_previous_round_stats YourBot_init w yt ot))
    = map (fun c => damage_dealt (damage_stats c)) ot.
Proof.
  do 5 eexists. split; [vm_compute; reflexivity|].
  eapply (process_previous_round_stats_after_round scripted_rng
            (two_team_loader [knight; squire] [squire; knight]) 20
            "yours" "theirs" true []).
  vm_compute; reflexivity.
Defined.
